(** * gomarkov: a fixed-order Markov chain over token sequences

    A shallow embedding of [gomarkov.go] and its helper file (n-grams,
    sparse rows, [MakePairs]) and the properties of the chain's training,
    query, sampling and snapshot operations.

    Conventions of the embedding:
    - Go's [int] is a 64-bit two's complement integer: a [Z] with the
      wrap-around of [+] and [-] written out ([GoInt]).
    - Go's [float64] is the kernel's binary64 ([PrimFloat.float]).
    - Go's [string] and [[]byte] are byte sequences ([string]).
    - Go's [map] is a [gmap]; a [range] over a map visits every entry once
      in an order the runtime chooses, so every function that ranges over
      a map is written over the visiting order, a list. A missing key reads
      as the zero value.
    - The length of a slice and the size of a map are bounded by memory and
      are taken as they are; the counts of a row are [int]s that wrap.
    - Memory itself is not bounded, but the range check [make] runs on its
      length is kept ([GoRuntime]). [append] is concatenation: the capacity
      the runtime grows a slice to is its own choice and is left out.
    - A [Chain] is one that [NewChain] or [UnmarshalJSON] made: its pool is
      not nil. A nil map reads as the empty map; [Add], which writes to the
      maps, is embedded for the maps [NewChain] made.
    - A run-time panic is the [Panic] outcome of [result].
    - The mutex that [Chain] carries orders concurrent calls; the embedding
      is of one call at a time and leaves it out. *)

From Stdlib Require Import ZArith QArith Qcanon Lia Ascii String.
From Stdlib Require Import Floats.PrimFloat Floats.FloatOps Floats.SpecFloat.
From stdpp Require Import gmap strings list fin_maps sorting pretty.

Local Open Scope Z_scope.

(** ** Machine integers *)

Module GoInt.

Definition min_int : Z := - 2 ^ 63.
Definition max_int : Z := 2 ^ 63 - 1.

(** The value an [int] holds after an operation whose exact result is [z]. *)
Definition wrap (z : Z) : Z := (z + 2 ^ 63) mod 2 ^ 64 - 2 ^ 63.

Definition add (a b : Z) : Z := wrap (a + b).
Definition sub (a b : Z) : Z := wrap (a - b).

Definition in_range (z : Z) : Prop := min_int <= z <= max_int.

End GoInt.

(** ** The allocator's limit

    On a 64-bit platform (linux/amd64) the runtime serves no object above
    [maxAlloc] bytes, the size of the heap's address space, and a string
    header takes 16 bytes. [makeslice] panics on a length that is negative
    or whose size in bytes passes [maxAlloc]. *)

Module GoRuntime.

Definition maxAlloc : Z := 2 ^ 48.
Definition string_size : Z := 16.

(** The most strings one slice can hold. *)
Definition max_strings : Z := maxAlloc / string_size.

End GoRuntime.

(** ** Floating point *)

Module Float64.

(** The conversion [float64(n)] of an [int]: the nearest binary64, ties
    to even. *)
Definition of_int (n : Z) : float := SF2Prim (binary_normalize prec emax n 0 false).

(** The exact value of a finite binary64, as a rational. *)
Definition to_Q (f : float) : option Q :=
  match Prim2SF f with
  | S754_zero _ => Some 0%Q
  | S754_finite s m e =>
      let n := if s then Z.neg m else Z.pos m in
      Some (if (0 <=? e)%Z then inject_Z (n * 2 ^ e) else (n # Pos.pow 2 (Z.to_pos (- e)))%Q)
  | _ => None
  end.

(** [s += x] over a slice of values, from [0]. *)
Definition sum (xs : list float) : float := foldl PrimFloat.add 0%float xs.

(** The sum of the exact values, when all are finite. *)
Definition exact_sum (xs : list float) : option Q :=
  foldr (fun x acc =>
           match to_Q x, acc with
           | Some q, Some s => Some (Qred (q + s))
           | _, _ => None
           end) (Some 0%Q) xs.

End Float64.

(** ** Outcomes of a call that may panic *)

Inductive result (A : Type) : Type :=
  | Ok (a : A)
  | Panic (msg : string).
Arguments Ok {A} a.
Arguments Panic {A} msg.

Global Instance result_ret : MRet result := fun A a => Ok a.
Global Instance result_bind : MBind result := fun A B k r =>
  match r with
  | Ok a => k a
  | Panic msg => Panic msg
  end.

(** Go's [error] values of this package carry only their message. *)
Definition error : Type := string.

(** ** Tokens, n-grams and pairs *)

Definition StartToken : string := "^".
Definition EndToken : string := "$".

Abbreviation NGram := (list string).

Record Pair : Type := {
  CurrentState : NGram;
  NextState : string;
}.

(** [strings.Join]. *)
Fixpoint Join (elems : list string) (sep : string) : string :=
  match elems with
  | [] => ""
  | x :: rest =>
      match rest with
      | [] => x
      | _ => x +:+ sep +:+ Join rest sep
      end
  end.

Definition key (ngram : NGram) : string := Join ngram "_".

(** [make([]string, count)] filled with [value]; [make] panics on a
    negative length and on a length whose bytes pass the allocator's
    limit. *)
Definition array (value : string) (count : Z) : result (list string) :=
  if (count <? 0) || (GoRuntime.maxAlloc <? GoRuntime.string_size * count)
  then Panic "makeslice: len out of range"
  else Ok (replicate (Z.to_nat count) value).

(** The loop of [MakePairs], [n] iterations from index [i]. The slice
    expression and the index are checked as Go checks them. *)
Fixpoint MakePairs_from (tokens : list string) (order i n : nat) (pairs : list Pair)
  : result (list Pair) :=
  match n with
  | O => Ok pairs
  | S n' =>
      if bool_decide (i + order <= length tokens)%nat then
        match tokens !! (i + order)%nat with
        | Some next =>
            MakePairs_from tokens order (S i) n'
              (pairs ++ [{| CurrentState := take order (drop i tokens); NextState := next |}])
        | None => Panic "index out of range"
        end
      else Panic "slice bounds out of range"
  end.

(** [MakePairs]: one pair for every window of [order + 1] tokens. The loop
    bound [len(tokens)-order] is an [int]. The difference of a length and
    a non-negative [int] is exact; with a negative [order] it may pass the
    largest [int] and wrap to a negative number, and the loop has no turn
    ([MakePairs_bound] below). Where the loop has a turn, a negative
    [order] makes the first slice expression panic. *)
Definition MakePairs (tokens : list string) (order : Z) : result (list Pair) :=
  let n := if order <? 0 then GoInt.sub (Z.of_nat (length tokens)) order
           else Z.of_nat (length tokens) - order in
  if n <=? 0 then Ok []
  else if order <? 0 then Panic "slice bounds out of range"
  else MakePairs_from tokens (Z.to_nat order) 0 (Z.to_nat n) [].

(** ** The state pool *)

Record spool : Type := {
  stringMap : gmap string Z;
  intMap : gmap Z string;
}.

(** Modelled from the spec: the two methods of the state pool, whose file
    is not among the sources (the fields are the ones [NewChain] and
    [UnmarshalJSON] fill). [get] is a pure lookup; [add] returns the
    index of an interned key and otherwise issues the next dense index,
    the number of keys interned so far, recording both directions. *)
Definition spool_get (s : spool) (str : string) : Z * bool :=
  match stringMap s !! str with
  | Some index => (index, true)
  | None => (0, false)
  end.

Definition spool_add (s : spool) (str : string) : spool * Z :=
  match stringMap s !! str with
  | Some index => (s, index)
  | None =>
      let index := Z.of_nat (size (stringMap s)) in
      ({| stringMap := <[str := index]> (stringMap s);
          intMap := <[index := str]> (intMap s) |}, index)
  end.

(** ** Sparse rows *)

Abbreviation sparseArray := (gmap Z Z).

(** The orders in which a [range] may visit a map. *)
Definition ranges `{Countable K} {V} (m : gmap K V) (visit : list (K * V)) : Prop :=
  visit ≡ₚ map_to_list m.

(** [s[k]]: the zero value for a missing key. *)
Definition at_key (s : gmap Z Z) (k : Z) : Z := default 0 (s !! k).

(** [sum], over the order the range visits the row in. *)
Definition sum_over (visit : list (Z * Z)) : Z :=
  foldl (fun sum '(_, count) => GoInt.add sum count) 0 visit.

Definition sum (s : gmap Z Z) : Z := sum_over (map_to_list s).

(** The comparison closure [orderedPairs] hands to [sort.Slice]. *)
Definition less (a b : Z * Z) : bool :=
  if a.2 =? b.2 then a.1 <? b.1 else a.2 >? b.2.

(** [sort.Slice], as the insertion sort Go runs on a short slice. Any
    sorting algorithm gives [orderedPairs] the same result
    ([sorted_entries_unique] below). *)
Fixpoint sort_insert {A} (lt : A -> A -> bool) (x : A) (l : list A) : list A :=
  match l with
  | [] => [x]
  | y :: l' => if lt y x then y :: sort_insert lt x l' else x :: l
  end.

Definition sort_Slice {A} (lt : A -> A -> bool) (l : list A) : list A :=
  foldl (fun sorted x => sort_insert lt x sorted) [] l.

Definition orderedPairs_over (visit : list (Z * Z)) : list (Z * Z) :=
  sort_Slice less visit.

Definition orderedPairs (s : gmap Z Z) : list (Z * Z) :=
  orderedPairs_over (map_to_list s).

(** ** The chain *)

Record Chain : Type := {
  Order : Z;
  statePool : spool;
  frequencyMat : gmap Z (gmap Z Z);
}.

(** [chain.frequencyMat[i]]: the nil row for a missing index. *)
Definition row (chain : Chain) (i : Z) : gmap Z Z :=
  default ∅ (frequencyMat chain !! i).

Definition NewChain (order : Z) : Chain :=
  {| Order := order;
     statePool := {| stringMap := ∅; intMap := ∅ |};
     frequencyMat := ∅ |}.

(** One turn of the loop of [Add]. *)
Definition Add_pair (chain : Chain) (pair : Pair) : Chain :=
  let '(pool1, currentIndex) := spool_add (statePool chain) (key (CurrentState pair)) in
  let '(pool2, nextIndex) := spool_add pool1 (NextState pair) in
  let arr := row chain currentIndex in
  {| Order := Order chain;
     statePool := pool2;
     frequencyMat :=
       <[currentIndex := <[nextIndex := GoInt.add (at_key arr nextIndex) 1]> arr]>
         (frequencyMat chain) |}.

(** The pairs [Add] records for [input]. *)
Definition Add_pairs (order : Z) (input : list string) : result (list Pair) :=
  startTokens ← array StartToken order;
  endTokens ← array EndToken order;
  let tokens := [] ++ startTokens ++ input ++ endTokens in
  MakePairs tokens order.

Definition Add (chain : Chain) (input : list string) : result Chain :=
  pairs ← Add_pairs (Order chain) input;
  Ok (foldl Add_pair chain pairs).

(** [TransitionProbability], over the arithmetic [F] its quotient is taken
    in: [zero] is the literal [0], [of_int] the conversion of an [int]. *)
Definition TransitionProbability_in {F : Type} (zero : F) (of_int : Z -> F)
    (div : F -> F -> F) (chain : Chain) (next : string) (current : NGram)
  : F * option error :=
  if negb (Z.of_nat (length current) =? Order chain) then
    (zero, Some "N-gram length does not match chain order")
  else
    let '(currentIndex, currentExists) := spool_get (statePool chain) (key current) in
    let '(nextIndex, nextExists) := spool_get (statePool chain) next in
    if negb currentExists || negb nextExists then (zero, None)
    else
      let arr := row chain currentIndex in
      let sum := of_int (sum arr) in
      let freq := of_int (at_key arr nextIndex) in
      (div freq sum, None).

(** The method itself, in [float64]. *)
Definition TransitionProbability : Chain -> string -> NGram -> float * option error :=
  TransitionProbability_in 0%float Float64.of_int PrimFloat.div.

(** The same computation with the quotient taken exactly, in the
    rationals. *)
Definition exactProbability : Chain -> string -> NGram -> Q * option error :=
  TransitionProbability_in 0%Q inject_Z Qdiv.

(** ** Sampling *)

(** The randomness capability: [Intn] draws from the generator, which moves
    to a new state, or panics. *)
Class PRNG (G : Type) : Type := Intn : G -> Z -> result (Z * G).

(** The documented contract of [Intn]: a number in [[0,n)]. *)
Class PRNGInRange (G : Type) `{PRNG G} : Prop :=
  Intn_in_range : forall (g : G) (n : Z), 0 < n ->
    exists r g', Intn g n = Ok (r, g') /\ 0 <= r < n.

(** [fmt]'s [%v] of a slice of strings. *)
Definition format_NGram (current : NGram) : string := "[" +:+ Join current " " +:+ "]".

(** The subtraction loop: [Some] token when a turn returns, [None] when the
    loop runs out of pairs. *)
Fixpoint pick (intMap : gmap Z string) (pairs : list (Z * Z)) (randN : Z) : option string :=
  match pairs with
  | [] => None
  | (key, freq) :: pairs' =>
      let randN := GoInt.sub randN freq in
      if randN <=? 0 then Some (default "" (intMap !! key))
      else pick intMap pairs' randN
  end.

Section Generate.
Context {G : Type} `{PRNG G}.

Definition GenerateDeterministic (chain : Chain) (current : NGram) (prng : G)
  : result ((string * option error) * G) :=
  if negb (Z.of_nat (length current) =? Order chain) then
    Ok (("", Some "N-gram length does not match chain order"), prng)
  else
    match last current with
    | None => Panic "index out of range [-1]"
    | Some token =>
        if bool_decide (token = EndToken) then Ok (("", None), prng)
        else
          let '(currentIndex, currentExists) := spool_get (statePool chain) (key current) in
          if negb currentExists then
            Ok (("", Some ("Unknown ngram " +:+ format_NGram current)), prng)
          else
            let arr := row chain currentIndex in
            let sum := sum arr in
            '(randN, prng') ← Intn prng sum;
            let pairs := orderedPairs arr in
            match pick (intMap (statePool chain)) pairs randN with
            | Some token => Ok ((token, None), prng')
            | None => Ok (("", None), prng')
            end
    end.

(** [Generate] draws from the package's generator, [defaultPrng]. *)
Definition Generate (chain : Chain) (current : NGram) (defaultPrng : G)
  : result ((string * option error) * G) :=
  GenerateDeterministic chain current defaultPrng.


End Generate.

(** ** The snapshot codec *)

Module chainJSON.
Record t : Type := {
  Order : Z;
  SpoolMap : gmap string Z;
  FreqMat : gmap Z (gmap Z Z);
}.
End chainJSON.

(** The reverse map [UnmarshalJSON] builds, over the order the range visits
    the forward map in: a later entry overwrites an earlier one with the
    same index. *)
Definition invert_over (visit : list (string * Z)) : gmap Z string :=
  foldl (fun intMap '(k, v) => <[v := k]> intMap) ∅ visit.

Section Snapshot.
(** [encoding/json], and the order the runtime ranges over the decoded
    pool in. *)
Variable json_Marshal : chainJSON.t -> string * option error.
Variable json_Unmarshal : string -> error + chainJSON.t.
Variable range_SpoolMap : gmap string Z -> list (string * Z).



(** The receiver is returned as the call leaves it. *)
Definition UnmarshalJSON (chain : Chain) (b : string) : Chain * option error :=
  match json_Unmarshal b with
  | inl err => (chain, Some err)
  | inr obj =>
      let intMap := invert_over (range_SpoolMap (chainJSON.SpoolMap obj)) in
      ({| Order := chainJSON.Order obj;
          statePool := {| stringMap := chainJSON.SpoolMap obj; intMap := intMap |};
          frequencyMat := chainJSON.FreqMat obj |}, None)
  end.

End Snapshot.

(** ** A JSON reader and writer for snapshots

    An executable stand-in for [encoding/json] on the shape of [chainJSON],
    to run the snapshot operations on concrete documents: objects, strings
    with the escapes of quote and backslash, and integers. As Go does, the
    writer sorts the keys of a map and writes the fields of a struct in
    their order, and the reader ignores unknown fields, keeps the zero
    value of a missing field and lets the last of two equal keys win. *)

Module Json.

#[local] Set Warnings "-register-all".

Inductive value : Type :=
  | Null
  | Num (n : Z)
  | Str (s : string)
  | Obj (members : list (string * value)).

(** The double quote, by its code. *)
Definition dquote : ascii := "034"%char.

(** A document written with single quotes for the double ones. *)
Fixpoint text (s : string) : string :=
  match s with
  | EmptyString => EmptyString
  | String c s' => String (if bool_decide (c = "'"%char) then dquote else c) (text s')
  end.

Definition blank (c : ascii) : bool :=
  bool_decide (c = " "%char) || bool_decide (c = "009"%char)
  || bool_decide (c = "010"%char) || bool_decide (c = "013"%char).

Fixpoint skip_ws (s : string) : string :=
  match s with
  | String c s' => if blank c then skip_ws s' else s
  | EmptyString => s
  end.

(** The characters after an opening quote, up to the closing one. *)
Fixpoint read_string (s : string) : option (string * string) :=
  match s with
  | EmptyString => None
  | String c s' =>
      if bool_decide (c = dquote) then Some (EmptyString, s')
      else if bool_decide (c = "\"%char) then
        match s' with
        | String e s'' =>
            if bool_decide (e = dquote) || bool_decide (e = "\"%char) then
              '(str, rest) ← read_string s''; Some (String e str, rest)
            else None
        | EmptyString => None
        end
      else '(str, rest) ← read_string s'; Some (String c str, rest)
  end.

Definition digit (c : ascii) : option Z :=
  let n := Z.of_N (N_of_ascii c) in
  if (48 <=? n) && (n <=? 57) then Some (n - 48) else None.

Fixpoint read_digits (s : string) (acc : Z) : Z * string :=
  match s with
  | String c s' =>
      match digit c with
      | Some d => read_digits s' (10 * acc + d)
      | None => (acc, s)
      end
  | EmptyString => (acc, s)
  end.

Definition read_int (s : string) : option (Z * string) :=
  match s with
  | String c s' =>
      if bool_decide (c = "-"%char) then
        match s' with
        | String d _ =>
            match digit d with
            | Some _ => let '(n, rest) := read_digits s' 0 in Some (- n, rest)
            | None => None
            end
        | EmptyString => None
        end
      else
        match digit c with
        | Some _ => Some (read_digits s 0)
        | None => None
        end
  | EmptyString => None
  end.

Fixpoint read_value (fuel : nat) (s : string) : option (value * string) :=
  match fuel with
  | O => None
  | S fuel' =>
      match skip_ws s with
      | String c rest =>
          if bool_decide (c = "{"%char) then
            match skip_ws rest with
            | String c' rest' =>
                if bool_decide (c' = "}"%char) then Some (Obj [], rest')
                else read_members fuel' rest []
            | EmptyString => None
            end
          else if bool_decide (c = dquote) then
            '(str, rest') ← read_string rest; Some (Str str, rest')
          else
            match String c rest with
            | String "n" (String "u" (String "l" (String "l" rest'))) => Some (Null, rest')
            | _ => '(n, rest') ← read_int (String c rest); Some (Num n, rest')
            end
      | EmptyString => None
      end
  end
with read_members (fuel : nat) (s : string) (acc : list (string * value))
  : option (value * string) :=
  match fuel with
  | O => None
  | S fuel' =>
      match skip_ws s with
      | String q rest =>
          if bool_decide (q = dquote) then
            '(k, rest1) ← read_string rest;
            match skip_ws rest1 with
            | String colon rest2 =>
                if bool_decide (colon = ":"%char) then
                  '(v, rest3) ← read_value fuel' rest2;
                  match skip_ws rest3 with
                  | String sep rest4 =>
                      if bool_decide (sep = ","%char) then
                        read_members fuel' rest4 (acc ++ [(k, v)])
                      else if bool_decide (sep = "}"%char) then
                        Some (Obj (acc ++ [(k, v)]), rest4)
                      else None
                  | EmptyString => None
                  end
                else None
            | EmptyString => None
            end
          else None
      | EmptyString => None
      end
  end.

Definition read (b : string) : option value :=
  '(v, rest) ← read_value (S (String.length b)) b;
  if bool_decide (skip_ws rest = EmptyString) then Some v else None.

(** Decoding into Go values. *)
Definition to_int (v : value) : option Z :=
  match v with
  | Num n => if (GoInt.min_int <=? n) && (n <=? GoInt.max_int) then Some n else None
  | Null => Some 0
  | _ => None
  end.

Definition key_to_int (k : string) : option Z :=
  '(n, rest) ← read_int k;
  if bool_decide (rest = EmptyString) then to_int (Num n) else None.

Definition to_map {K A} `{Countable K} (to_key : string -> option K)
    (to_elem : value -> option A) (v : value) : option (gmap K A) :=
  match v with
  | Obj members =>
      foldl (fun acc '(k, e) =>
               m ← acc; k' ← to_key k; e' ← to_elem e; Some (<[k' := e']> m))
            (Some ∅) members
  | Null => Some ∅
  | _ => None
  end.

Definition field (name : string) (members : list (string * value)) : value :=
  default Null (snd <$> last (filter (fun m => m.1 = name) members)).

Definition to_chainJSON (v : value) : option chainJSON.t :=
  match v with
  | Obj members =>
      order ← to_int (field "int" members);
      spoolMap ← to_map Some to_int (field "spool_map" members);
      freqMat ← to_map key_to_int (to_map key_to_int to_int) (field "freq_mat" members);
      Some {| chainJSON.Order := order; chainJSON.SpoolMap := spoolMap;
              chainJSON.FreqMat := freqMat |}
  | _ => None
  end.

Definition Unmarshal (b : string) : error + chainJSON.t :=
  match read b ≫= to_chainJSON with
  | Some obj => inr obj
  | None => inl "json: cannot unmarshal into Go value of type gomarkov.chainJSON"
  end.







End Json.


(** ** Training histories *)

(** [NewChain] followed by one [Add] per input. *)
Fixpoint AddAll (chain : Chain) (inputs : list (list string)) : result Chain :=
  match inputs with
  | [] => Ok chain
  | input :: inputs' => chain' ← Add chain input; AddAll chain' inputs'
  end.

(** The pairs those calls record, in order. *)
Fixpoint history (order : Z) (inputs : list (list string)) : result (list Pair) :=
  match inputs with
  | [] => Ok []
  | input :: inputs' =>
      pairs ← Add_pairs order input;
      pairs' ← history order inputs';
      Ok (pairs ++ pairs')
  end.

(** The strings a list of pairs interns, and those it interns as the key
    of a current state. *)
Definition interned (pairs : list Pair) : list string :=
  pairs ≫= fun pair => [key (CurrentState pair); NextState pair].

Definition state_keys (pairs : list Pair) : list string :=
  (fun pair => key (CurrentState pair)) <$> pairs.

Definition interned_by (order : Z) (inputs : list (list string)) : list string :=
  match history order inputs with
  | Ok pairs => interned pairs
  | Panic _ => []
  end.

Definition states_of (order : Z) (inputs : list (list string)) : list string :=
  match history order inputs with
  | Ok pairs => state_keys pairs
  | Panic _ => []
  end.

(** The number of transitions [Add] records for the inputs: one per token
    and [order] more per input. *)
Definition transitions (order : Z) (inputs : list (list string)) : Z :=
  foldr (fun input n => Z.of_nat (length input) + order + n) 0 inputs.

(** The recorded transitions of a chain by name: current key, next token,
    count. *)
Definition name (chain : Chain) (i : Z) : string :=
  default "" (intMap (statePool chain) !! i).

Definition recorded (chain : Chain) : list (string * string * Z) :=
  map_to_list (frequencyMat chain) ≫= fun '(i, arr) =>
    (fun '(j, count) => (name chain i, name chain j, count)) <$> orderedPairs arr.

(** The interned strings of a chain. *)
Definition tokens (chain : Chain) : list string :=
  (map_to_list (stringMap (statePool chain))).*1.

(** ** A generator for running examples

    A linear congruential generator; like [math/rand], its [Intn] panics
    unless the bound is positive. *)
Definition lcg_Intn (seed : Z) (n : Z) : result (Z * Z) :=
  if n <=? 0 then Panic "invalid argument to Intn"
  else
    let seed' := (6364136223846793005 * seed + 1442695040888963407) mod 2 ^ 64 in
    Ok ((seed' / 2 ^ 33) mod n, seed').

Global Instance lcg : PRNG Z := lcg_Intn.

(** The chain [NewChain] and the [Add]s of [inputs] make. *)
Definition trained (order : Z) (inputs : list (list string)) : Chain :=
  match AddAll (NewChain order) inputs with
  | Ok chain => chain
  | Panic _ => NewChain order
  end.

(** ** Vocabulary of the properties *)

(** The exact total of a row, with no wrap-around. *)
Definition exact_sum (visit : list (Z * Z)) : Z := foldr (fun e n => e.2 + n) 0 visit.

Definition total (s : gmap Z Z) : Z := exact_sum (map_to_list s).

(** The two maps of a pool are inverse to each other, and the indices in
    use are the numbers below the pool's size. *)
Record pool_ok (p : spool) : Prop := {
  pool_inverse : forall str index,
    stringMap p !! str = Some index <-> intMap p !! index = Some str;
  pool_dense : forall str index,
    stringMap p !! str = Some index -> 0 <= index < Z.of_nat (size (stringMap p));
}.

(** What holds of a chain after the pairs of [pairs] have been recorded, in
    that order, on a new chain. *)
Record chain_ok (pairs : list Pair) (c : Chain) : Prop := {
  ok_pool : pool_ok (statePool c);
  ok_states : forall str, str ∈ state_keys pairs ->
    exists i, stringMap (statePool c) !! str = Some i /\ is_Some (frequencyMat c !! i);
  ok_rows : forall i arr, frequencyMat c !! i = Some arr ->
    arr <> ∅ /\ total arr <= Z.of_nat (length pairs) /\
    forall j count, arr !! j = Some count ->
      1 <= count /\ is_Some (intMap (statePool c) !! j);
}.

(** The order of [orderedPairs]: a larger count first, and among equal
    counts the smaller column first. *)
Definition before (a b : Z * Z) : Prop := a.2 > b.2 \/ (a.2 = b.2 /\ a.1 < b.1).

(** The sum of a list of rationals. *)
Definition Qsum (xs : list Q) : Q := foldr Qplus 0%Q xs.

(** A chain in which the state a has six successors, each seen once. *)
Definition six_successors : Chain :=
  trained 1 [["a"; "b"; "a"; "c"; "a"; "d"; "a"; "e"; "a"; "f"; "a"; "g"]].

(** ** More of the package *)

(** [orderedKeys]: the keys in the order the range visits them, sorted by
    [sort.Ints]. *)
Definition orderedKeys_over (visit : list (Z * Z)) : list Z :=
  sort_Slice Z.ltb visit.*1.

Definition orderedKeys (s : gmap Z Z) : list Z :=
  orderedKeys_over (map_to_list s).

Definition max (a b : Z) : Z := if a >? b then a else b.

(** ** Vocabulary of the further properties *)

(** How often the pairs hold the transition from the state of key [k] to
    the token [t], and how often a transition from that state. *)
Fixpoint occurrences (pairs : list Pair) (k t : string) : Z :=
  match pairs with
  | [] => 0
  | p :: pairs' =>
      (if bool_decide (key (CurrentState p) = k /\ NextState p = t) then 1 else 0)
      + occurrences pairs' k t
  end.

Fixpoint departures (pairs : list Pair) (k : string) : Z :=
  match pairs with
  | [] => 0
  | p :: pairs' =>
      (if bool_decide (key (CurrentState p) = k) then 1 else 0)
      + departures pairs' k
  end.

(** The same over the inputs of a training. *)
Definition seen (order : Z) (inputs : list (list string)) (k t : string) : Z :=
  match history order inputs with
  | Ok pairs => occurrences pairs k t
  | Panic _ => 0
  end.

Definition seen_from (order : Z) (inputs : list (list string)) (k : string) : Z :=
  match history order inputs with
  | Ok pairs => departures pairs k
  | Panic _ => 0
  end.

(** The count a chain holds for a transition between two strings, and the
    exact total of the row of a string; 0 where a string is not interned. *)
Definition count_of (c : Chain) (k t : string) : Z :=
  match stringMap (statePool c) !! k, stringMap (statePool c) !! t with
  | Some i, Some j => at_key (row c i) j
  | _, _ => 0
  end.

Definition total_of (c : Chain) (k : string) : Z :=
  match stringMap (statePool c) !! k with
  | Some i => total (row c i)
  | None => 0
  end.

(** The counts of a chain are those of the pairs recorded on it, and its
    rows and columns are indices of the pool. *)
Record counts_ok (pairs : list Pair) (c : Chain) : Prop := {
  counts_pool : pool_ok (statePool c);
  counts_issued : forall i arr, frequencyMat c !! i = Some arr ->
    is_Some (intMap (statePool c) !! i)
    /\ forall j count, arr !! j = Some count -> is_Some (intMap (statePool c) !! j);
  counts_occurrences : forall k t, count_of c k t = occurrences pairs k t;
  counts_departures : forall k, total_of c k = departures pairs k;
}.

(** A token without the delimiter of keys. *)
Fixpoint delimiter_free (s : string) : bool :=
  match s with
  | EmptyString => true
  | String c s' => negb (bool_decide (c = "_"%char)) && delimiter_free s'
  end.

(** ** Well-formed UTF-8

    [utf8.ValidString]: the bytes of the string are a sequence of
    well-formed encodings, with no overlong form, no surrogate and nothing
    above U+10FFFF. [encoding/json] writes such a string, and reads it
    back, as it is; of any other it writes U+FFFD for the offending
    bytes. *)







(** ** A codec that reads back what it writes

    The binary digits of the code of the struct: a codec of which
    [reads_back] holds, to run the snapshot operations on. *)

Module Binary.

Global Instance chainJSON_eq_dec : EqDecision chainJSON.t.
Proof. solve_decision. Defined.

Global Instance chainJSON_countable : Countable chainJSON.t.
Proof.
  apply (inj_countable'
           (fun obj => (chainJSON.Order obj, chainJSON.SpoolMap obj, chainJSON.FreqMat obj))
           (fun '(order, spoolMap, freqMat) =>
              {| chainJSON.Order := order; chainJSON.SpoolMap := spoolMap;
                 chainJSON.FreqMat := freqMat |})).
  by intros [].
Defined.





End Binary.


(** * Properties *)

(** ** Machine integers *)

Lemma wrap_in_range z : GoInt.in_range z -> GoInt.wrap z = z.
Proof.
  unfold GoInt.in_range, GoInt.min_int, GoInt.max_int, GoInt.wrap. intros Hz.
  rewrite Z.mod_small by lia. lia.
Qed.

Lemma wrap_add_l a b : GoInt.wrap (GoInt.wrap a + b) = GoInt.wrap (a + b).
Proof.
  unfold GoInt.wrap.
  replace ((a + 2 ^ 63) mod 2 ^ 64 - 2 ^ 63 + b + 2 ^ 63)
    with ((a + 2 ^ 63) mod 2 ^ 64 + b) by lia.
  rewrite Zplus_mod_idemp_l. f_equal. f_equal. lia.
Qed.

(** ** Ranges and generators *)

Lemma ranges_map_to_list `{Countable K} {V} (m : gmap K V) : ranges m (map_to_list m).
Proof. unfold ranges. reflexivity. Qed.

Global Instance lcg_in_range : PRNGInRange Z.
Proof.
  intros g n Hn. unfold Intn, lcg, lcg_Intn.
  destruct (Z.leb_spec n 0) as [|_]; [lia|].
  eexists _, _. split; [done|]. by apply Z.mod_pos_bound.
Qed.

(** ** Row sums *)

Lemma exact_sum_perm l1 l2 : l1 ≡ₚ l2 -> exact_sum l1 = exact_sum l2.
Proof.
  induction 1 as [|x l l' _ IH|x y l|l l' l'' _ IH1 _ IH2]; simpl; lia.
Qed.

Lemma sum_over_from a l :
  foldl (fun sum '(_, count) => GoInt.add sum count) (GoInt.wrap a) l
  = GoInt.wrap (a + exact_sum l).
Proof.
  revert a. induction l as [|[k v] l IH]; intros a; simpl.
  - f_equal. lia.
  - unfold GoInt.add at 2. rewrite wrap_add_l, IH. f_equal. lia.
Qed.

Lemma sum_over_wrap l : sum_over l = GoInt.wrap (exact_sum l).
Proof. apply (sum_over_from 0 l). Qed.

(** X2. [sum] returns the same number whatever order the range visits the
    row in, wrap-around included. *)
Theorem sum_over_ranges (s : gmap Z Z) (visit : list (Z * Z)) :
  ranges s visit -> sum_over visit = sum s.
Proof.
  intros Hv. unfold sum. rewrite !sum_over_wrap. f_equal. by apply exact_sum_perm.
Qed.

Lemma sum_over_ranges_witness :
  sum_over [(8, 2); (3, 2); (5, 7)] = sum {[3 := 2; 5 := 7; 8 := 2]}.
Proof.
  apply (sum_over_ranges {[3 := 2; 5 := 7; 8 := 2]} [(8, 2); (3, 2); (5, 7)]).
  unfold ranges. vm_compute map_to_list. apply (Permutation_rev [_; _; _]).
Defined.

Lemma sum_wrap_total (s : gmap Z Z) : sum s = GoInt.wrap (total s).
Proof. apply sum_over_wrap. Qed.

Lemma total_empty : total ∅ = 0.
Proof. unfold total. by rewrite map_to_list_empty. Qed.

Lemma total_delete (s : gmap Z Z) k : total s = at_key s k + total (delete k s).
Proof.
  unfold total, at_key. destruct (s !! k) as [v|] eqn:Hk; simpl.
  - by rewrite <- (exact_sum_perm _ _ (map_to_list_delete s k v Hk)).
  - by rewrite delete_id.
Qed.

Lemma total_insert (s : gmap Z Z) k v : total (<[k := v]> s) = v + total (delete k s).
Proof.
  rewrite (total_delete (<[k := v]> s) k). unfold at_key.
  rewrite lookup_insert_eq, delete_insert_eq. done.
Qed.

Lemma total_nonneg (s : gmap Z Z) :
  (forall k v, s !! k = Some v -> 0 <= v) -> 0 <= total s.
Proof.
  intros Hs. unfold total.
  assert (Forall (fun e => 0 <= e.2) (map_to_list s)) as Hall.
  { apply Forall_forall. intros [k v] Hin. apply elem_of_map_to_list in Hin. eauto. }
  induction Hall; simpl; lia.
Qed.

Lemma at_key_le_total (s : gmap Z Z) k :
  (forall k v, s !! k = Some v -> 0 <= v) -> at_key s k <= total s.
Proof.
  intros Hs. rewrite (total_delete s k).
  assert (0 <= total (delete k s)); [|lia].
  apply total_nonneg. intros k' v Hk'.
  apply lookup_delete_Some in Hk' as [_ Hk']. eauto.
Qed.

Lemma foldr_add_ext {A} (f g : A -> Z) (l : list A) :
  (forall x, x ∈ l -> f x = g x) ->
  foldr (fun x n => f x + n) 0 l = foldr (fun x n => g x + n) 0 l.
Proof.
  induction l as [|x l IH]; intros Hfg; simpl; [done|].
  rewrite IH, (Hfg x); [done|by left|].
  intros y Hy. apply Hfg. by right.
Qed.

(** Reading a row at every index of a duplicate-free list that covers its
    keys adds up to its total. *)
Lemma total_at_keys (js : list Z) : forall s : gmap Z Z,
  NoDup js -> (forall j, is_Some (s !! j) -> j ∈ js) ->
  foldr (fun j n => at_key s j + n) 0 js = total s.
Proof.
  induction js as [|j js IH]; intros s Hnd Hcov; simpl.
  - assert (s = ∅) as ->; [|by rewrite total_empty].
    apply map_empty. intros i. apply eq_None_not_Some. intros Hi.
    apply Hcov in Hi. by apply elem_of_nil in Hi.
  - apply NoDup_cons in Hnd as [Hj Hnd].
    rewrite (total_delete s j). f_equal.
    rewrite <- (IH (delete j s) Hnd).
    + apply foldr_add_ext. intros j' Hj'. unfold at_key.
      rewrite lookup_delete_ne; [done|]. by intros ->.
    + intros j' [v Hv]. apply lookup_delete_Some in Hv as [Hne Hv].
      pose proof (Hcov j' (ex_intro _ v Hv)) as Hin.
      apply elem_of_cons in Hin as [Heq|Hin]; [congruence|done].
Qed.

(** ** The pool invariant *)

Lemma pool_ok_empty : pool_ok {| stringMap := ∅; intMap := ∅ |}.
Proof. split; simpl; intros str index; [split|]; by rewrite lookup_empty. Qed.

Lemma pool_injective p str str' index :
  pool_ok p -> stringMap p !! str = Some index -> stringMap p !! str' = Some index ->
  str = str'.
Proof.
  intros Hp H1 H2. apply (pool_inverse p Hp) in H1, H2. congruence.
Qed.

Lemma spool_add_fresh_ok p str :
  pool_ok p -> stringMap p !! str = None ->
  pool_ok {| stringMap := <[str := Z.of_nat (size (stringMap p))]> (stringMap p);
             intMap := <[Z.of_nat (size (stringMap p)) := str]> (intMap p) |}.
Proof.
  intros Hp Hnew. set (n := Z.of_nat (size (stringMap p))).
  assert (forall s i, stringMap p !! s = Some i -> i <> n) as Hlt.
  { intros s i Hs. apply (pool_dense p Hp) in Hs. lia. }
  split; simpl.
  - intros s i. destruct (decide (str = s)) as [<-|Hs].
    + rewrite lookup_insert_eq. split.
      * intros [= <-]. by rewrite lookup_insert_eq.
      * destruct (decide (n = i)) as [<-|Hi]; [done|].
        rewrite lookup_insert_ne by done. intros Hi'.
        apply (pool_inverse p Hp) in Hi'. congruence.
    + rewrite lookup_insert_ne by done. split.
      * intros Hi. rewrite lookup_insert_ne by (symmetry; eauto).
        by apply (pool_inverse p Hp).
      * destruct (decide (n = i)) as [<-|Hi].
        -- rewrite lookup_insert_eq. congruence.
        -- rewrite lookup_insert_ne by done. by apply (pool_inverse p Hp).
  - intros s i. rewrite map_size_insert_None by done.
    destruct (decide (str = s)) as [<-|Hs].
    + rewrite lookup_insert_eq. intros [= <-]. lia.
    + rewrite lookup_insert_ne by done. intros Hi.
      apply (pool_dense p Hp) in Hi. lia.
Qed.

(** What [add] guarantees. *)
Lemma spool_add_spec p str p' index :
  pool_ok p -> spool_add p str = (p', index) ->
  pool_ok p'
  /\ stringMap p' !! str = Some index
  /\ (forall s i, stringMap p !! s = Some i -> stringMap p' !! s = Some i)
  /\ (forall s, is_Some (stringMap p' !! s) <-> s = str \/ is_Some (stringMap p !! s)).
Proof.
  intros Hp. unfold spool_add. destruct (stringMap p !! str) as [i|] eqn:Hstr.
  - intros [= <- <-]. split; [done|]. split; [done|]. split; [done|].
    intros s. split; [by right|]. intros [->|Hs]; [by exists i|done].
  - intros [= <- <-]. simpl. split; [by apply spool_add_fresh_ok|].
    split; [by rewrite lookup_insert_eq|]. split.
    + intros s i Hs. rewrite lookup_insert_ne; [done|congruence].
    + intros s. rewrite lookup_insert_is_Some. split.
      * intros [<-|[_ Hs]]; [by left|by right].
      * intros [->|Hs]; [by left|].
        destruct (decide (str = s)); [by left|by right].
Qed.

Lemma pool_intMap_mono p p' :
  pool_ok p -> pool_ok p' ->
  (forall s i, stringMap p !! s = Some i -> stringMap p' !! s = Some i) ->
  forall j, is_Some (intMap p !! j) -> is_Some (intMap p' !! j).
Proof.
  intros Hp Hp' Hmono j [s Hs]. exists s.
  apply (pool_inverse p' Hp'), Hmono. by apply (pool_inverse p Hp).
Qed.

(** ** The invariant of a trained chain *)

Lemma chain_ok_new order : chain_ok [] (NewChain order).
Proof.
  split; simpl.
  - apply pool_ok_empty.
  - by intros str ?%elem_of_nil.
  - intros i arr. by rewrite lookup_empty.
Qed.

Lemma chain_ok_row pairs c i :
  chain_ok pairs c ->
  0 <= total (row c i) <= Z.of_nat (length pairs) /\
  forall j count, row c i !! j = Some count ->
    1 <= count /\ is_Some (intMap (statePool c) !! j).
Proof.
  intros Hc. unfold row. destruct (frequencyMat c !! i) as [arr|] eqn:Hi; simpl.
  - destruct (ok_rows _ _ Hc i arr Hi) as (_ & Htot & Hent). split; [split; [|done]|done].
    apply total_nonneg. intros k v Hk. apply Hent in Hk. lia.
  - rewrite total_empty. split; [lia|]. intros j count. by rewrite lookup_empty.
Qed.

Lemma state_keys_snoc pairs pair str :
  str ∈ state_keys (pairs ++ [pair]) <->
  str ∈ state_keys pairs \/ str = key (CurrentState pair).
Proof.
  unfold state_keys. rewrite fmap_app, elem_of_app. simpl.
  rewrite elem_of_cons, elem_of_nil. tauto.
Qed.

(** One turn of [Add]'s loop keeps the invariant, as long as the count of
    recorded pairs stays an [int]. *)
Lemma Add_pair_ok pairs c pair :
  chain_ok pairs c -> Z.of_nat (length pairs) < GoInt.max_int ->
  chain_ok (pairs ++ [pair]) (Add_pair c pair).
Proof.
  intros Hc Hlen. unfold Add_pair.
  destruct (spool_add (statePool c) (key (CurrentState pair))) as [p1 ci] eqn:H1.
  destruct (spool_add p1 (NextState pair)) as [p2 ni] eqn:H2.
  destruct (spool_add_spec _ _ _ _ (ok_pool _ _ Hc) H1) as (Hp1 & Hci & Hmono1 & Hdom1).
  destruct (spool_add_spec _ _ _ _ Hp1 H2) as (Hp2 & Hni & Hmono2 & Hdom2).
  assert (forall j, is_Some (intMap (statePool c) !! j) -> is_Some (intMap p2 !! j)) as Hint.
  { apply pool_intMap_mono; [apply Hc|done|eauto]. }
  destruct (chain_ok_row pairs c ci Hc) as [Htot Hent].
  set (arr := row c ci) in *.
  assert (forall k v, arr !! k = Some v -> 0 <= v) as Hnn.
  { intros k v Hk. apply Hent in Hk. lia. }
  assert (0 <= at_key arr ni <= total arr) as Hat.
  { split; [|by apply at_key_le_total].
    unfold at_key. destruct (arr !! ni) eqn:Hk; simpl; [eauto|lia]. }
  assert (GoInt.add (at_key arr ni) 1 = at_key arr ni + 1) as ->.
  { apply wrap_in_range. unfold GoInt.in_range, GoInt.min_int, GoInt.max_int in *. lia. }
  split; simpl.
  - done.
  - intros str [Hstr| ->]%state_keys_snoc.
    + destruct (ok_states _ _ Hc str Hstr) as (i & Hi & Hrow). exists i. split; [eauto|].
      rewrite lookup_insert_is_Some. destruct (decide (ci = i)); [by left|by right].
    + exists ci. split; [eauto|]. rewrite lookup_insert_eq. eauto.
  - intros i a. rewrite length_app, Nat2Z.inj_add. simpl.
    destruct (decide (ci = i)) as [<-|Hi].
    + rewrite lookup_insert_eq. intros [= <-]. split; [apply insert_non_empty|].
      split.
      * rewrite total_insert. rewrite (total_delete arr ni) in Htot. lia.
      * intros j count. destruct (decide (ni = j)) as [<-|Hj].
        -- rewrite lookup_insert_eq. intros [= <-]. split; [lia|].
           exists (NextState pair). by apply (pool_inverse p2 Hp2).
        -- rewrite lookup_insert_ne by done. intros Hj'.
           destruct (Hent j count Hj'). eauto.
    + rewrite lookup_insert_ne by done. intros Ha.
      destruct (ok_rows _ _ Hc i a Ha) as (Hne & Htot' & Hent').
      split; [done|]. split; [lia|]. intros j count Hj.
      destruct (Hent' j count Hj). eauto.
Qed.

Lemma Add_pair_Order c pair : Order (Add_pair c pair) = Order c.
Proof.
  unfold Add_pair. by repeat destruct (spool_add _ _).
Qed.

Lemma foldl_Add_pair_Order ps : forall c, Order (foldl Add_pair c ps) = Order c.
Proof.
  induction ps as [|pair ps IH]; intros c; simpl; [done|].
  by rewrite IH, Add_pair_Order.
Qed.

Lemma foldl_Add_pair_ok ps : forall pairs c,
  chain_ok pairs c -> Z.of_nat (length (pairs ++ ps)) <= GoInt.max_int ->
  chain_ok (pairs ++ ps) (foldl Add_pair c ps).
Proof.
  induction ps as [|pair ps IH]; intros pairs c Hc Hlen; simpl.
  - by rewrite app_nil_r.
  - replace (pairs ++ pair :: ps) with ((pairs ++ [pair]) ++ ps) in *
      by (by rewrite <- app_assoc).
    apply IH; [|done].
    apply Add_pair_ok; [done|]. rewrite !length_app in Hlen. simpl in Hlen. lia.
Qed.

(** ** Training *)

Lemma MakePairs_from_length n : forall tokens order i pairs r,
  MakePairs_from tokens order i n pairs = Ok r -> length r = (length pairs + n)%nat.
Proof.
  induction n as [|n IH]; intros tokens order i pairs r; simpl.
  - intros [= <-]. lia.
  - case_bool_decide; [|done]. destruct (tokens !! (i + order)%nat); [|done].
    intros Hr. apply IH in Hr. rewrite length_app in Hr. simpl in Hr. lia.
Qed.

(** The loop never indexes out of range. *)
Lemma MakePairs_from_total n : forall tokens order i pairs,
  (i + n + order <= length tokens)%nat ->
  exists r, MakePairs_from tokens order i n pairs = Ok r.
Proof.
  induction n as [|n IH]; intros tokens order i pairs Hlen; simpl; [by eexists|].
  rewrite bool_decide_eq_true_2 by lia.
  destruct (lookup_lt_is_Some_2 tokens (i + order)%nat ltac:(lia)) as [next ->].
  apply IH. lia.
Qed.

Lemma max_strings_eq : GoRuntime.max_strings = 2 ^ 44.
Proof. reflexivity. Qed.

(** [make] returns for the lengths from 0 to the most strings a slice can
    hold, and for no other. *)
Lemma array_total value count :
  0 <= count <= GoRuntime.max_strings ->
  array value count = Ok (replicate (Z.to_nat count) value).
Proof.
  rewrite max_strings_eq. intros Hcount. unfold array.
  destruct (Z.ltb_spec count 0) as [|_]; [lia|].
  destruct (Z.ltb_spec GoRuntime.maxAlloc (GoRuntime.string_size * count)) as [Hmem|_];
    [|done].
  unfold GoRuntime.maxAlloc, GoRuntime.string_size in Hmem. lia.
Qed.

Lemma array_Ok value count l :
  array value count = Ok l ->
  0 <= count <= GoRuntime.max_strings /\ l = replicate (Z.to_nat count) value.
Proof.
  rewrite max_strings_eq. unfold array.
  destruct (Z.ltb_spec count 0) as [|Hcount]; [done|].
  destruct (Z.ltb_spec GoRuntime.maxAlloc (GoRuntime.string_size * count)) as [|Hmem];
    [done|].
  unfold GoRuntime.maxAlloc, GoRuntime.string_size in Hmem.
  simpl. intros [= <-]. split; [lia|done].
Qed.

Lemma array_negative value count :
  count < 0 -> array value count = Panic "makeslice: len out of range".
Proof.
  intros Hcount. unfold array. by destruct (Z.ltb_spec count 0) as [_|]; [|lia].
Qed.

(** The loop bound of [MakePairs] is the [int] Go computes, for every
    [order] that is an [int] and every length a slice can have. *)
Lemma MakePairs_bound (tokens : list string) (order : Z) :
  GoInt.in_range order -> Z.of_nat (length tokens) <= GoInt.max_int ->
  (if order <? 0 then GoInt.sub (Z.of_nat (length tokens)) order
   else Z.of_nat (length tokens) - order)
  = GoInt.sub (Z.of_nat (length tokens)) order.
Proof.
  intros Horder Hlen. destruct (Z.ltb_spec order 0) as [|Hpos]; [done|].
  unfold GoInt.sub. symmetry. apply wrap_in_range.
  unfold GoInt.in_range, GoInt.min_int, GoInt.max_int in *. lia.
Qed.

(** With an order [make] accepts, [Add] hands the padded sequence to
    [MakePairs]; with another one it panics before. *)
Lemma Add_pairs_padded order input :
  0 <= order <= GoRuntime.max_strings ->
  Add_pairs order input
  = MakePairs (replicate (Z.to_nat order) StartToken ++ input
                 ++ replicate (Z.to_nat order) EndToken) order.
Proof. intros Horder. unfold Add_pairs. by rewrite !array_total. Qed.

Lemma Add_pairs_order order input pairs :
  Add_pairs order input = Ok pairs -> 0 <= order <= GoRuntime.max_strings.
Proof.
  unfold Add_pairs. destruct (array StartToken order) as [l|] eqn:Hl; [|done].
  intros _. by apply array_Ok in Hl as [? _].
Qed.

Lemma Add_pairs_length order input pairs :
  Add_pairs order input = Ok pairs ->
  0 <= order /\ Z.of_nat (length pairs) = Z.of_nat (length input) + order.
Proof.
  intros Hpairs. pose proof (Add_pairs_order _ _ _ Hpairs) as Horder.
  rewrite Add_pairs_padded in Hpairs by done. split; [lia|]. revert Hpairs.
  unfold MakePairs. destruct (Z.ltb_spec order 0) as [|_]; [lia|].
  rewrite !length_app, !length_replicate.
  destruct (_ <=? 0) eqn:Hn.
  - intros [= <-]. apply Z.leb_le in Hn. simpl in *. lia.
  - intros Hr. apply Z.leb_gt in Hn.
    apply MakePairs_from_length in Hr. simpl in *. lia.
Qed.

Lemma Add_pairs_total order input :
  0 <= order <= GoRuntime.max_strings -> exists pairs, Add_pairs order input = Ok pairs.
Proof.
  intros Horder. rewrite Add_pairs_padded by done. unfold MakePairs.
  destruct (Z.ltb_spec order 0) as [|_]; [lia|]. case_match; [by eexists|].
  apply MakePairs_from_total. rewrite !length_app, !length_replicate. simpl. lia.
Qed.

Lemma history_length order inputs : forall pairs,
  history order inputs = Ok pairs -> Z.of_nat (length pairs) = transitions order inputs.
Proof.
  induction inputs as [|input inputs IH]; intros pairs; simpl.
  - by intros [= <-].
  - destruct (Add_pairs order input) as [ps|] eqn:Hps; simpl; [|done].
    destruct (history order inputs) as [qs|]; simpl; [|done].
    intros [= <-]. apply Add_pairs_length in Hps as [_ Hps].
    rewrite length_app, Nat2Z.inj_add, (IH qs eq_refl). lia.
Qed.

Lemma AddAll_history inputs : forall c c',
  AddAll c inputs = Ok c' ->
  exists pairs, history (Order c) inputs = Ok pairs /\ c' = foldl Add_pair c pairs.
Proof.
  induction inputs as [|input inputs IH]; intros c c'; simpl.
  - intros [= <-]. by exists [].
  - unfold Add. destruct (Add_pairs (Order c) input) as [ps|]; simpl; [|done].
    intros Hc'. apply IH in Hc' as (qs & Hqs & ->).
    rewrite foldl_Add_pair_Order in Hqs. rewrite Hqs. simpl.
    exists (ps ++ qs). by rewrite foldl_app.
Qed.

(** Every chain made by [NewChain] and [Add] satisfies the invariant. *)
Lemma trained_ok order inputs chain :
  AddAll (NewChain order) inputs = Ok chain ->
  transitions order inputs <= GoInt.max_int ->
  exists pairs, history order inputs = Ok pairs /\ chain_ok pairs chain.
Proof.
  intros Hchain Hlen. apply AddAll_history in Hchain as (pairs & Hpairs & ->).
  simpl in Hpairs. exists pairs. split; [done|].
  apply (foldl_Add_pair_ok pairs [] (NewChain order) (chain_ok_new order)).
  simpl. by rewrite (history_length order inputs pairs Hpairs).
Qed.

Lemma AddAll_Order inputs : forall c c', AddAll c inputs = Ok c' -> Order c' = Order c.
Proof.
  intros c c' Hc'. apply AddAll_history in Hc' as (pairs & _ & ->).
  apply foldl_Add_pair_Order.
Qed.

(** X1. On a chain made by [NewChain] and [Add], of a non-negative
    order, [Add] returns for every input whose padded sequence, [order]
    START tokens, the input and [order] END tokens, takes at most a quarter
    of the strings one slice can hold: [make] accepts the length of the
    padding, [append] grows the sequence and the pairs within the
    allocator's limit (to a capacity of at most about twice the length),
    and the slice expressions and indices of [MakePairs] stay in range. *)
Theorem Add_total (order : Z) (inputs : list (list string)) (c : Chain)
    (input : list string) :
  AddAll (NewChain order) inputs = Ok c ->
  0 <= order ->
  4 * (2 * order + Z.of_nat (length input)) <= GoRuntime.max_strings ->
  exists c', Add c input = Ok c'.
Proof.
  intros Hc Horder Hfits. unfold Add. rewrite (AddAll_Order _ _ _ Hc). simpl.
  destruct (Add_pairs_total order input) as [pairs ->]; [lia|]. by eexists.
Qed.

Lemma Add_total_witness : exists c', Add (trained 2 [["a"; "b"]]) ["a"; "b"; "c"] = Ok c'.
Proof.
  apply (Add_total 2 [["a"; "b"]] (trained 2 [["a"; "b"]]) ["a"; "b"; "c"]).
  - vm_compute. reflexivity.
  - lia.
  - vm_compute. discriminate.
Defined.

(** The pool is consistent whatever the number of recorded pairs. *)
Lemma Add_pair_pool_ok c pair : pool_ok (statePool c) -> pool_ok (statePool (Add_pair c pair)).
Proof.
  intros Hc. unfold Add_pair.
  destruct (spool_add (statePool c) (key (CurrentState pair))) as [p1 ci] eqn:H1.
  destruct (spool_add p1 (NextState pair)) as [p2 ni] eqn:H2. simpl.
  destruct (spool_add_spec _ _ _ _ Hc H1) as (Hp1 & _).
  by destruct (spool_add_spec _ _ _ _ Hp1 H2) as (Hp2 & _).
Qed.

Lemma trained_pool_ok order inputs chain :
  AddAll (NewChain order) inputs = Ok chain -> pool_ok (statePool chain).
Proof.
  intros Hchain. apply AddAll_history in Hchain as (pairs & _ & ->).
  assert (forall ps c, pool_ok (statePool c) -> pool_ok (statePool (foldl Add_pair c ps))) as H.
  { induction ps as [|pair ps IH]; intros c Hc; simpl; [done|].
    by apply IH, Add_pair_pool_ok. }
  apply H, pool_ok_empty.
Qed.

(** The strings in the pool are those the recorded pairs interned. *)
Lemma Add_pair_interned c pair str :
  pool_ok (statePool c) ->
  is_Some (stringMap (statePool (Add_pair c pair)) !! str) <->
  is_Some (stringMap (statePool c) !! str)
  \/ str = key (CurrentState pair) \/ str = NextState pair.
Proof.
  intros Hc. unfold Add_pair.
  destruct (spool_add (statePool c) (key (CurrentState pair))) as [p1 ci] eqn:H1.
  destruct (spool_add p1 (NextState pair)) as [p2 ni] eqn:H2. simpl.
  destruct (spool_add_spec _ _ _ _ Hc H1) as (Hp1 & _ & _ & Hdom1).
  destruct (spool_add_spec _ _ _ _ Hp1 H2) as (_ & _ & _ & Hdom2).
  rewrite Hdom2, Hdom1. tauto.
Qed.

Lemma foldl_Add_pair_interned ps : forall c str,
  pool_ok (statePool c) ->
  is_Some (stringMap (statePool (foldl Add_pair c ps)) !! str) <->
  is_Some (stringMap (statePool c) !! str) \/ str ∈ interned ps.
Proof.
  induction ps as [|pair ps IH]; intros c str Hc; simpl.
  - unfold interned. simpl. rewrite elem_of_nil. tauto.
  - rewrite IH by by apply Add_pair_pool_ok. rewrite Add_pair_interned by done.
    unfold interned. simpl. rewrite !elem_of_cons. tauto.
Qed.

Lemma trained_interned order inputs chain str :
  AddAll (NewChain order) inputs = Ok chain ->
  is_Some (stringMap (statePool chain) !! str) <-> str ∈ interned_by order inputs.
Proof.
  intros Hchain. apply AddAll_history in Hchain as (pairs & Hpairs & ->).
  simpl in Hpairs. unfold interned_by. rewrite Hpairs.
  rewrite foldl_Add_pair_interned by apply pool_ok_empty.
  simpl. rewrite lookup_empty. split; [intros [[? ?]|?]; done|by right].
Qed.

(** ** Queries *)

Lemma spool_get_Some p str index :
  stringMap p !! str = Some index -> spool_get p str = (index, true).
Proof. unfold spool_get. by intros ->. Qed.

Lemma spool_get_None p str :
  stringMap p !! str = None -> spool_get p str = (0, false).
Proof. unfold spool_get. by intros ->. Qed.

Lemma spool_get_found p str :
  (spool_get p str).2 = true <-> is_Some (stringMap p !! str).
Proof.
  unfold spool_get. destruct (stringMap p !! str); simpl; split; done.
Qed.

Lemma TransitionProbability_unknown chain next current :
  Z.of_nat (length current) = Order chain ->
  (spool_get (statePool chain) (key current)).2 = false
  \/ (spool_get (statePool chain) next).2 = false ->
  TransitionProbability chain next current = (0%float, None).
Proof.
  intros Hlen Hget. unfold TransitionProbability, TransitionProbability_in.
  apply Z.eqb_eq in Hlen. rewrite Hlen. simpl.
  destruct (spool_get (statePool chain) (key current)) as [ci [|]];
    destruct (spool_get (statePool chain) next) as [ni [|]]; simpl in *;
    by destruct Hget.
Qed.

(** C3. [TransitionProbability] returns an error exactly when the length
    of [current] differs from the chain's order; when the length matches
    and the pool does not hold [current]'s key, or does not hold [next],
    it returns probability 0 and no error. *)
Theorem TransitionProbability_error_iff chain next current :
  (is_Some (TransitionProbability chain next current).2
     <-> Z.of_nat (length current) <> Order chain)
  /\ (Z.of_nat (length current) = Order chain ->
      (spool_get (statePool chain) (key current)).2 = false
      \/ (spool_get (statePool chain) next).2 = false ->
      TransitionProbability chain next current = (0%float, None)).
Proof.
  unfold TransitionProbability, TransitionProbability_in.
  destruct (Z.eqb_spec (Z.of_nat (length current)) (Order chain)) as [Heq|Hne]; simpl.
  - destruct (spool_get (statePool chain) (key current)) as [ci [|]];
      destruct (spool_get (statePool chain) next) as [ni [|]]; simpl;
      (split; [split; [by intros [? ?]|done]|]); intros _ [|]; done.
  - split; [split; [done|by eexists]|done].
Qed.


(** C5. On an n-gram of the chain's order whose last token is the END
    sentinel, [GenerateDeterministic] and [Generate] return the empty string
    and no error, without drawing from the generator, whatever the chain
    has recorded. *)
Theorem Generate_after_EndToken {G : Type} `{PRNG G} (chain : Chain)
    (current : NGram) (prng : G) :
  Z.of_nat (length current) = Order chain ->
  last current = Some EndToken ->
  GenerateDeterministic chain current prng = Ok (("", None), prng)
  /\ Generate chain current prng = Ok (("", None), prng).
Proof.
  intros Hlen Hlast. unfold Generate, GenerateDeterministic.
  apply Z.eqb_eq in Hlen. by rewrite Hlen, Hlast.
Qed.

(** The theorem on a chain that never saw the n-gram ["a"; "$"]. *)
Lemma Generate_after_EndToken_witness :
  GenerateDeterministic (NewChain 2) ["a"; "$"] 7 = Ok (("", None), 7)
  /\ Generate (NewChain 2) ["a"; "$"] 7 = Ok (("", None), 7).
Proof.
  apply (Generate_after_EndToken (NewChain 2) ["a"; "$"] 7); reflexivity.
Defined.

(** C4. After training by [NewChain] and [Add], an n-gram of the chain's
    order whose last token is not the END sentinel and whose key no [Add]
    interned makes [GenerateDeterministic] return the unknown n-gram error,
    and [TransitionProbability] from it is 0 with no error. *)
Theorem Generate_unknown_ngram {G : Type} `{PRNG G} (order : Z)
    (inputs : list (list string)) (chain : Chain) (current : NGram)
    (token next : string) (prng : G) :
  AddAll (NewChain order) inputs = Ok chain ->
  Z.of_nat (length current) = order ->
  last current = Some token -> token <> EndToken ->
  key current ∉ interned_by order inputs ->
  GenerateDeterministic chain current prng
    = Ok (("", Some ("Unknown ngram " +:+ format_NGram current)), prng)
  /\ TransitionProbability chain next current = (0%float, None).
Proof.
  intros Hchain Hlen Hlast Htoken Hkey.
  assert (Order chain = order) as Horder by apply (AddAll_Order _ _ _ Hchain).
  assert (spool_get (statePool chain) (key current) = (0, false)) as Hget.
  { apply spool_get_None, eq_None_not_Some.
    by rewrite (trained_interned order inputs chain _ Hchain). }
  split.
  - unfold GenerateDeterministic. rewrite Horder, <- Hlen, Z.eqb_refl, Hlast. simpl.
    rewrite bool_decide_eq_false_2 by done. by rewrite Hget.
  - apply TransitionProbability_unknown; [congruence|]. left. by rewrite Hget.
Qed.

Lemma Generate_unknown_ngram_witness :
  GenerateDeterministic (trained 1 [["a"]]) ["b"] 7
    = Ok (("", Some "Unknown ngram [b]"), 7)
  /\ TransitionProbability (trained 1 [["a"]]) "a" ["b"] = (0%float, None).
Proof.
  apply (Generate_unknown_ngram 1 [["a"]] (trained 1 [["a"]]) ["b"] "b" "a" 7);
    try reflexivity.
  - discriminate.
  - vm_compute. intros Hb. repeat (apply elem_of_cons in Hb as [Hb|Hb]; [discriminate|]).
    by apply elem_of_nil in Hb.
Defined.


(** C8. Order 1, one [Add] of the, cat, sat on a new chain: the recorded
    transitions are START to the, the to cat, cat to sat and sat to END,
    each once, and nothing else; the probability of cat after the is
    1.0, and that of dog after the is 0.0 with no error. *)
Theorem the_cat_sat_scenario :
  exists chain : Chain,
    Add (NewChain 1) ["the"; "cat"; "sat"] = Ok chain
    /\ recorded chain ≡ₚ
         [(StartToken, "the", 1); ("the", "cat", 1); ("cat", "sat", 1);
          ("sat", EndToken, 1)]
    /\ TransitionProbability chain "cat" ["the"] = (1%float, None)
    /\ TransitionProbability chain "dog" ["the"] = (0%float, None).
Proof.
  eexists. split; [reflexivity|]. split; [|split; reflexivity].
  vm_compute. apply (Permutation_rev [_; _; _; _]).
Qed.


(** ** Ordered pairs *)

Section insertion_sort.
Context {A : Type} (lt : A -> A -> bool).
Hypothesis lt_trans : forall a b c, lt a b = true -> lt b c = true -> lt a c = true.
Hypothesis lt_total : forall a b, a <> b -> lt a b = false -> lt b a = true.

Lemma sort_insert_perm x l : sort_insert lt x l ≡ₚ x :: l.
Proof.
  induction l as [|y l IH]; simpl; [done|].
  destruct (lt y x); [|done]. rewrite IH. apply Permutation_swap.
Qed.

Lemma sort_Slice_perm l : sort_Slice lt l ≡ₚ l.
Proof.
  unfold sort_Slice.
  assert (forall acc, foldl (fun sorted x => sort_insert lt x sorted) acc l ≡ₚ acc ++ l) as H.
  { induction l as [|x l IH]; intros acc; simpl; [by rewrite app_nil_r|].
    rewrite IH, sort_insert_perm. simpl. apply Permutation_middle. }
  apply (H []).
Qed.

Lemma sort_insert_sorted x l :
  StronglySorted (fun a b => lt a b = true) l -> x ∉ l ->
  StronglySorted (fun a b => lt a b = true) (sort_insert lt x l).
Proof.
  induction 1 as [|y l Hl IH Hy]; intros Hx; simpl.
  - by repeat constructor.
  - apply not_elem_of_cons in Hx as [Hxy Hx].
    destruct (lt y x) eqn:Hyx.
    + constructor; [by apply IH|]. rewrite sort_insert_perm. by constructor.
    + assert (lt x y = true) as Hlt by (apply lt_total; [done|done]).
      constructor; [by constructor|]. constructor; [done|].
      eapply Forall_impl; [exact Hy|]. intros z Hz. by eapply lt_trans.
Qed.

Lemma sort_Slice_sorted l :
  NoDup l -> StronglySorted (fun a b => lt a b = true) (sort_Slice lt l).
Proof.
  unfold sort_Slice.
  assert (forall acc, StronglySorted (fun a b => lt a b = true) acc -> NoDup l ->
            (forall x, x ∈ l -> x ∉ acc) ->
            StronglySorted (fun a b => lt a b = true)
              (foldl (fun sorted x => sort_insert lt x sorted) acc l)) as H.
  { induction l as [|x l IH]; intros acc Hacc Hnd Hfresh; simpl; [done|].
    apply NoDup_cons in Hnd as [Hx Hnd]. apply IH; [|done|].
    - apply sort_insert_sorted; [done|]. apply Hfresh. by left.
    - intros z Hz. rewrite sort_insert_perm. apply not_elem_of_cons. split.
      + by intros ->.
      + apply Hfresh. by right. }
  intros Hnd. apply H; [constructor|done|]. intros x _. apply not_elem_of_nil.
Qed.

End insertion_sort.

Lemma less_before a b : less a b = true <-> before a b.
Proof.
  unfold less, before. destruct (Z.eqb_spec a.2 b.2) as [Heq|Hne].
  - rewrite Z.ltb_lt. lia.
  - rewrite Z.gtb_gt. lia.
Qed.

Lemma less_trans a b c : less a b = true -> less b c = true -> less a c = true.
Proof. rewrite !less_before. unfold before. lia. Qed.

Lemma less_total (a b : Z * Z) : a <> b -> less a b = false -> less b a = true.
Proof.
  intros Hne Hab. apply less_before.
  assert (~ before a b) as Hnb by (rewrite <- less_before; congruence).
  destruct a as [a1 a2], b as [b1 b2]. unfold before in *. simpl in *.
  destruct (decide (a1 = b1)), (decide (a2 = b2)); [congruence|lia..].
Qed.

Lemma before_sorted_iff l :
  StronglySorted (fun a b => less a b = true) l <-> StronglySorted before l.
Proof.
  split; induction 1 as [|x l Hl IH Hx]; constructor; try done;
    (eapply Forall_impl; [exact Hx|]); intros y; by rewrite less_before.
Qed.

(** A row has one list of its entries in this order: whatever the
    algorithm that sorts them, the result is the same list. *)
Lemma sorted_entries_unique (l1 l2 : list (Z * Z)) :
  StronglySorted before l1 -> StronglySorted before l2 -> l1 ≡ₚ l2 -> l1 = l2.
Proof.
  apply StronglySorted_unique_strong. intros a b _ _. unfold before. lia.
Qed.

(** C9. Whatever order the range visits a row in, [orderedPairs] returns
    all of the row's entries, each once, sorted by descending count and,
    among equal counts, by ascending column; the list is the same for
    every visiting order. *)
Theorem orderedPairs_deterministic (s : gmap Z Z) (visit : list (Z * Z)) :
  ranges s visit ->
  (forall k v, (k, v) ∈ orderedPairs_over visit <-> s !! k = Some v)
  /\ NoDup (orderedPairs_over visit)
  /\ StronglySorted before (orderedPairs_over visit)
  /\ orderedPairs_over visit = orderedPairs s.
Proof.
  intros Hvisit. unfold ranges in Hvisit.
  assert (orderedPairs_over visit ≡ₚ map_to_list s) as Hperm.
  { unfold orderedPairs_over. by rewrite sort_Slice_perm. }
  assert (forall l, NoDup l -> StronglySorted before (orderedPairs_over l)) as Hsorted.
  { intros l Hl. apply before_sorted_iff, sort_Slice_sorted; [|apply less_total|done].
    apply less_trans. }
  assert (NoDup visit) as Hnd by (rewrite Hvisit; apply NoDup_map_to_list).
  split; [|split; [|split]].
  - intros k v. by rewrite Hperm, elem_of_map_to_list.
  - rewrite Hperm. apply NoDup_map_to_list.
  - by apply Hsorted.
  - apply sorted_entries_unique; [by apply Hsorted| |].
    + apply Hsorted, NoDup_map_to_list.
    + unfold orderedPairs, orderedPairs_over. by rewrite !sort_Slice_perm.
Qed.

(** The theorem on the row 3:2, 5:7, 8:2, visited from the smallest count. *)
Lemma orderedPairs_deterministic_witness :
  (forall k v, (k, v) ∈ orderedPairs_over [(8, 2); (3, 2); (5, 7)]
     <-> ({[3 := 2; 5 := 7; 8 := 2]} : gmap Z Z) !! k = Some v)
  /\ NoDup (orderedPairs_over [(8, 2); (3, 2); (5, 7)])
  /\ StronglySorted before (orderedPairs_over [(8, 2); (3, 2); (5, 7)])
  /\ orderedPairs_over [(8, 2); (3, 2); (5, 7)] = orderedPairs {[3 := 2; 5 := 7; 8 := 2]}.
Proof.
  apply (orderedPairs_deterministic {[3 := 2; 5 := 7; 8 := 2]} [(8, 2); (3, 2); (5, 7)]).
  unfold ranges. vm_compute map_to_list. apply (Permutation_rev [_; _; _]).
Defined.


(** ** Snapshots *)

Lemma invert_from_elem l : forall (acc : gmap Z string) i k,
  foldl (fun intMap '(k, v) => <[v := k]> intMap) acc l !! i = Some k ->
  acc !! i = Some k \/ (k, i) ∈ l.
Proof.
  induction l as [|[k' i'] l IH]; intros acc i k; simpl; [by left|].
  intros [Hacc|Hl]%IH; [|right; by right].
  destruct (decide (i' = i)) as [->|Hi].
  - rewrite lookup_insert_eq in Hacc. injection Hacc as ->. right. by left.
  - rewrite lookup_insert_ne in Hacc by done. by left.
Qed.

Lemma invert_from_covers l : forall (acc : gmap Z string) i,
  is_Some (acc !! i) \/ i ∈ l.*2 ->
  is_Some (foldl (fun intMap '(k, v) => <[v := k]> intMap) acc l !! i).
Proof.
  induction l as [|[k' i'] l IH]; intros acc i; simpl.
  - intros [Hacc|Hl]; [done|by apply elem_of_nil in Hl].
  - intros Hi. apply IH. rewrite lookup_insert_is_Some.
    destruct (decide (i' = i)) as [->|Hne]; [left; by left|].
    destruct Hi as [Hacc|Hl]; [left; by right|].
    apply elem_of_cons in Hl as [Heq|Hl]; [by simpl in Heq|by right].
Qed.

Lemma invert_from_notin l : forall (acc : gmap Z string) i,
  i ∉ l.*2 -> foldl (fun intMap '(k, v) => <[v := k]> intMap) acc l !! i = acc !! i.
Proof.
  induction l as [|[k' i'] l IH]; intros acc i; simpl; [done|].
  intros [Hi Hl]%not_elem_of_cons. rewrite IH by done.
  by rewrite lookup_insert_ne.
Qed.

Lemma invert_from_lookup l : forall (acc : gmap Z string) i k,
  NoDup l.*2 -> (k, i) ∈ l ->
  foldl (fun intMap '(k, v) => <[v := k]> intMap) acc l !! i = Some k.
Proof.
  induction l as [|[k' i'] l IH]; intros acc i k; simpl.
  - by intros _ ?%elem_of_nil.
  - intros [Hi' Hnd]%NoDup_cons [[= -> ->]|Hl]%elem_of_cons.
    + rewrite invert_from_notin by done. by rewrite lookup_insert_eq.
    + by apply IH.
Qed.

(** The loop [intMap[v] = k] leaves at an index the key of the last entry
    with that index. *)
Lemma invert_over_last (visit : list (string * Z)) (i : Z) :
  invert_over visit !! i = fst <$> last (filter (fun e => e.2 = i) visit).
Proof.
  induction visit as [|[k v] visit IH] using rev_ind; [done|].
  unfold invert_over. rewrite foldl_app, filter_app. simpl.
  destruct (decide (v = i)) as [->|Hv].
  - rewrite lookup_insert_eq, filter_cons_True, filter_nil by done.
    by rewrite last_snoc.
  - rewrite lookup_insert_ne, filter_cons_False, filter_nil, app_nil_r by done.
    apply IH.
Qed.


Section Snapshot_properties.
Variable json_Marshal : chainJSON.t -> string * option error.
Variable json_Unmarshal : string -> error + chainJSON.t.
Variable range_SpoolMap : gmap string Z -> list (string * Z).
Hypothesis range_visits : forall m, ranges m (range_SpoolMap m).


End Snapshot_properties.

(** C6, as the code has it. [UnmarshalJSON] returns an error exactly when
    the JSON library rejects the document. It accepts a document whose pool
    maps two keys to one index: the forward map is kept as it is, and the
    reverse map holds, for every index of the pool, one of the keys that map
    to it: the key of the last entry with that index that the range over
    the forward map visits. *)
Theorem UnmarshalJSON_accepts
    (json_Unmarshal : string -> error + chainJSON.t)
    (range_SpoolMap : gmap string Z -> list (string * Z))
    (receiver : Chain) (b : string) :
  (forall m, ranges m (range_SpoolMap m)) ->
  match json_Unmarshal b with
  | inl err => UnmarshalJSON json_Unmarshal range_SpoolMap receiver b = (receiver, Some err)
  | inr obj =>
      exists chain,
        UnmarshalJSON json_Unmarshal range_SpoolMap receiver b = (chain, None)
        /\ Order chain = chainJSON.Order obj
        /\ stringMap (statePool chain) = chainJSON.SpoolMap obj
        /\ frequencyMat chain = chainJSON.FreqMat obj
        /\ (forall index str, intMap (statePool chain) !! index = Some str ->
              chainJSON.SpoolMap obj !! str = Some index)
        /\ (forall str index, chainJSON.SpoolMap obj !! str = Some index ->
              is_Some (intMap (statePool chain) !! index))
        /\ (forall index,
              intMap (statePool chain) !! index
              = fst <$> last (filter (fun e => e.2 = index)
                                (range_SpoolMap (chainJSON.SpoolMap obj))))
  end.
Proof.
  intros Hrange. unfold UnmarshalJSON.
  destruct (json_Unmarshal b) as [err|obj]; [done|].
  eexists. split; [done|]. simpl. split; [done|]. split; [done|]. split; [done|].
  pose proof (Hrange (chainJSON.SpoolMap obj)) as Hvisit. unfold ranges in Hvisit.
  split; [|split].
  - unfold invert_over.
    intros index str [Hacc|Hl]%invert_from_elem; [by rewrite lookup_empty in Hacc|].
    by rewrite Hvisit, elem_of_map_to_list in Hl.
  - unfold invert_over. intros str index Hstr. apply invert_from_covers. right.
    apply list_elem_of_fmap. exists (str, index). split; [done|].
    by rewrite Hvisit, elem_of_map_to_list.
  - intros index. apply invert_over_last.
Qed.

(** The theorem on a document whose pool maps a and b to 0. *)
Lemma UnmarshalJSON_accepts_witness :
  match Json.Unmarshal (Json.text "{'int':1,'spool_map':{'a':0,'b':0},'freq_mat':{}}") with
  | inl err =>
      UnmarshalJSON Json.Unmarshal map_to_list (NewChain 0)
        (Json.text "{'int':1,'spool_map':{'a':0,'b':0},'freq_mat':{}}")
      = (NewChain 0, Some err)
  | inr obj =>
      exists chain,
        UnmarshalJSON Json.Unmarshal map_to_list (NewChain 0)
          (Json.text "{'int':1,'spool_map':{'a':0,'b':0},'freq_mat':{}}")
        = (chain, None)
        /\ Order chain = chainJSON.Order obj
        /\ stringMap (statePool chain) = chainJSON.SpoolMap obj
        /\ frequencyMat chain = chainJSON.FreqMat obj
        /\ (forall index str, intMap (statePool chain) !! index = Some str ->
              chainJSON.SpoolMap obj !! str = Some index)
        /\ (forall str index, chainJSON.SpoolMap obj !! str = Some index ->
              is_Some (intMap (statePool chain) !! index))
        /\ (forall index,
              intMap (statePool chain) !! index
              = fst <$> last (filter (fun e => e.2 = index)
                                (map_to_list (chainJSON.SpoolMap obj))))
  end.
Proof.
  apply (UnmarshalJSON_accepts Json.Unmarshal map_to_list (NewChain 0)
           (Json.text "{'int':1,'spool_map':{'a':0,'b':0},'freq_mat':{}}")).
  intros m. apply ranges_map_to_list.
Defined.

(** C6 as stated fails: the pool of this document maps a and b to the
    index 0, and [UnmarshalJSON] returns no error. *)
Lemma UnmarshalJSON_not_injective :
  UnmarshalJSON Json.Unmarshal map_to_list (NewChain 0)
    (Json.text "{'int':1,'spool_map':{'a':0,'b':0},'freq_mat':{}}")
  = ({| Order := 1;
        statePool := {| stringMap := {["a" := 0; "b" := 0]}; intMap := {[0 := "b"]} |};
        frequencyMat := ∅ |}, None).
Proof. vm_compute. reflexivity. Qed.


(** ** Rows of recorded states *)

Lemma total_positive (arr : gmap Z Z) :
  arr <> ∅ -> (forall j count, arr !! j = Some count -> 1 <= count) -> 1 <= total arr.
Proof.
  intros Hne Hent. destruct (map_choose arr Hne) as (j & count & Hj).
  rewrite (total_delete arr j). unfold at_key. rewrite Hj. simpl.
  assert (0 <= total (delete j arr)).
  { apply total_nonneg. intros k v [_ Hk]%lookup_delete_Some. apply Hent in Hk. lia. }
  apply Hent in Hj. lia.
Qed.

(** The key of a recorded current state has an index and a row, the row
    sums to a positive [int], and its columns are indices of the pool. *)
Lemma state_row pairs c str :
  chain_ok pairs c -> Z.of_nat (length pairs) <= GoInt.max_int ->
  str ∈ state_keys pairs ->
  exists i arr,
    stringMap (statePool c) !! str = Some i
    /\ frequencyMat c !! i = Some arr
    /\ 0 < total arr /\ sum arr = total arr
    /\ forall j count, arr !! j = Some count ->
         1 <= count /\ is_Some (intMap (statePool c) !! j).
Proof.
  intros Hc Hlen Hstr.
  destruct (ok_states _ _ Hc str Hstr) as (i & Hi & [arr Harr]).
  destruct (ok_rows _ _ Hc i arr Harr) as (Hne & Htot & Hent).
  assert (1 <= total arr) as Hpos.
  { apply total_positive; [done|]. intros j count Hj. by destruct (Hent j count Hj). }
  exists i, arr. repeat (split; [done || lia|]). split; [|done].
  rewrite sum_wrap_total. apply wrap_in_range.
  unfold GoInt.in_range, GoInt.min_int, GoInt.max_int in *. lia.
Qed.

Lemma trained_state_row order inputs chain current :
  AddAll (NewChain order) inputs = Ok chain ->
  transitions order inputs <= GoInt.max_int ->
  key current ∈ states_of order inputs ->
  exists i arr,
    stringMap (statePool chain) !! key current = Some i
    /\ frequencyMat chain !! i = Some arr
    /\ 0 < total arr /\ sum arr = total arr
    /\ forall j count, arr !! j = Some count ->
         1 <= count /\ is_Some (intMap (statePool chain) !! j).
Proof.
  intros Hchain Hlen Hkey.
  destruct (trained_ok order inputs chain Hchain Hlen) as (pairs & Hpairs & Hc).
  unfold states_of in Hkey. rewrite Hpairs in Hkey.
  apply (state_row pairs); [done| |done].
  by rewrite (history_length order inputs pairs Hpairs).
Qed.

Lemma row_present chain i arr : frequencyMat chain !! i = Some arr -> row chain i = arr.
Proof. unfold row. by intros ->. Qed.

(** The quotient [TransitionProbability] returns when both lookups
    succeed. *)
Lemma TransitionProbability_in_known {F : Type} (zero : F) (of_int : Z -> F)
    (div : F -> F -> F) chain next current i j :
  Z.of_nat (length current) = Order chain ->
  stringMap (statePool chain) !! key current = Some i ->
  stringMap (statePool chain) !! next = Some j ->
  TransitionProbability_in zero of_int div chain next current
  = (div (of_int (at_key (row chain i) j)) (of_int (sum (row chain i))), None).
Proof.
  intros Hlen Hi Hj. unfold TransitionProbability_in.
  apply Z.eqb_eq in Hlen. rewrite Hlen. simpl.
  by rewrite (spool_get_Some _ _ _ Hi), (spool_get_Some _ _ _ Hj).
Qed.

(** ** Probabilities of the successors of a state *)

Lemma Qsum_quotients {A} (f : A -> Z) (d : Z) (l : list A) :
  d <> 0 ->
  (Qsum ((fun e => inject_Z (f e) / inject_Z d) <$> l)
   == inject_Z (foldr (fun e n => (f e + n)%Z) 0%Z l) / inject_Z d)%Q.
Proof.
  intros Hd. assert (~ (inject_Z d == 0)%Q) as Hd'.
  { unfold Qeq. simpl. lia. }
  induction l as [|e l IH]; simpl.
  - by field.
  - rewrite IH, inject_Z_plus. by field.
Qed.

(** The indices of the pool, each once, cover the columns of every row. *)
Lemma pool_indices_NoDup p : pool_ok p -> NoDup (map_to_list (stringMap p)).*2.
Proof.
  intros Hp. apply NoDup_fmap_2_strong; [|apply NoDup_map_to_list].
  intros [k1 i1] [k2 i2] H1%elem_of_map_to_list H2%elem_of_map_to_list. simpl.
  intros <-. f_equal. by apply (pool_injective p k1 k2 i1).
Qed.

Lemma pool_indices_cover p j :
  pool_ok p -> is_Some (intMap p !! j) -> j ∈ (map_to_list (stringMap p)).*2.
Proof.
  intros Hp [str Hstr]. apply list_elem_of_fmap. exists (str, j). split; [done|].
  by apply elem_of_map_to_list, (pool_inverse p Hp).
Qed.

(** C2, as the code has it. On a chain made by [NewChain] and [Add], for a
    current state with a recorded transition, the counts of its row add up
    to the row's sum, which is positive: the exact quotients count over sum,
    taken over the interned tokens, sum to 1, and every other token has
    probability 0. [TransitionProbability] returns the [float64] quotient
    of the same two integers. *)
Theorem successor_quotients_sum_to_one (order : Z) (inputs : list (list string))
    (chain : Chain) (current : NGram) :
  AddAll (NewChain order) inputs = Ok chain ->
  transitions order inputs <= GoInt.max_int ->
  Z.of_nat (length current) = order ->
  key current ∈ states_of order inputs ->
  (Qsum ((fun next => (exactProbability chain next current).1) <$> tokens chain) == 1)%Q
  /\ (forall next, next ∈ tokens chain ->
        exists count total : Z,
          0 <= count /\ 0 < total
          /\ exactProbability chain next current
              = ((inject_Z count / inject_Z total)%Q, None)
          /\ TransitionProbability chain next current
              = ((Float64.of_int count / Float64.of_int total)%float, None))
  /\ (forall next, next ∉ tokens chain ->
        exactProbability chain next current = (0%Q, None)
        /\ TransitionProbability chain next current = (0%float, None)).
Proof.
  intros Hchain Hbound Hlen Hkey.
  assert (Order chain = order) as Horder by apply (AddAll_Order _ _ _ Hchain).
  assert (Z.of_nat (length current) = Order chain) as Hlen' by congruence.
  pose proof (trained_pool_ok order inputs chain Hchain) as Hpool.
  destruct (trained_state_row order inputs chain current Hchain Hbound Hkey)
    as (i & arr & Hi & Harr & Hpos & Hsum & Hent).
  apply row_present in Harr.
  assert (forall e, e ∈ map_to_list (stringMap (statePool chain)) ->
            exactProbability chain e.1 current
            = ((inject_Z (at_key arr e.2) / inject_Z (total arr))%Q, None)
            /\ TransitionProbability chain e.1 current
               = ((Float64.of_int (at_key arr e.2) / Float64.of_int (total arr))%float, None))
    as Hknown.
  { intros [next j] Hj%elem_of_map_to_list. simpl.
    unfold exactProbability, TransitionProbability.
    rewrite !(TransitionProbability_in_known _ _ _ chain next current i j) by done.
    by rewrite Harr, Hsum. }
  split; [|split].
  - unfold tokens. rewrite <- list_fmap_compose.
    rewrite (list_fmap_ext _ (fun e => inject_Z (at_key arr e.2) / inject_Z (total arr))%Q).
    + rewrite Qsum_quotients by lia.
      rewrite <- (foldr_fmap (fun j n => at_key arr j + n) 0 _ snd).
      rewrite total_at_keys.
      * field. unfold Qeq. simpl. lia.
      * by apply pool_indices_NoDup.
      * intros j [count Hj]. apply pool_indices_cover; [done|].
        by destruct (Hent j count Hj).
    + intros n e He. simpl. apply list_elem_of_lookup_2 in He.
      by destruct (Hknown e He) as [-> _].
  - intros next [[next' j] [-> He]]%list_elem_of_fmap.
    exists (at_key arr j), (total arr). split; [|split; [done|by apply Hknown]].
    unfold at_key. destruct (arr !! j) as [count|] eqn:Hj; simpl; [|lia].
    destruct (Hent j count Hj). lia.
  - intros next Hnext.
    assert (spool_get (statePool chain) next = (0, false)) as Hget.
    { apply spool_get_None, eq_None_not_Some. intros [j Hj]. apply Hnext.
      apply list_elem_of_fmap. exists (next, j). by rewrite elem_of_map_to_list. }
    unfold exactProbability, TransitionProbability, TransitionProbability_in.
    apply Z.eqb_eq in Hlen'. rewrite Hlen', Hget. simpl.
    by destruct (spool_get (statePool chain) (key current)) as [? [|]].
Qed.

Lemma successor_quotients_sum_to_one_witness :
  (Qsum ((fun next => (exactProbability six_successors next ["a"]).1)
           <$> tokens six_successors) == 1)%Q
  /\ (forall next, next ∈ tokens six_successors ->
        exists count total : Z,
          0 <= count /\ 0 < total
          /\ exactProbability six_successors next ["a"]
              = ((inject_Z count / inject_Z total)%Q, None)
          /\ TransitionProbability six_successors next ["a"]
              = ((Float64.of_int count / Float64.of_int total)%float, None))
  /\ (forall next, next ∉ tokens six_successors ->
        exactProbability six_successors next ["a"] = (0%Q, None)
        /\ TransitionProbability six_successors next ["a"] = (0%float, None)).
Proof.
  apply (successor_quotients_sum_to_one 1
           [["a"; "b"; "a"; "c"; "a"; "d"; "a"; "e"; "a"; "f"; "a"; "g"]]
           six_successors ["a"]).
  - vm_compute. reflexivity.
  - vm_compute. discriminate.
  - vm_compute. reflexivity.
  - vm_compute. apply elem_of_cons. right. by left.
Defined.

(** C2 as stated fails in [float64]: the six successors of a have the
    probability 1/6 each, rounded, and these add up to less than 1, both
    by [float64] additions (1 - 2^-53) and exactly (1 - 2^-54). *)
Lemma probabilities_sum_below_one :
  AddAll (NewChain 1) [["a"; "b"; "a"; "c"; "a"; "d"; "a"; "e"; "a"; "f"; "a"; "g"]]
  = Ok six_successors
  /\ (fun next => (TransitionProbability six_successors next ["a"]).1) <$> tokens six_successors
  = [(1 / 6)%float; (1 / 6)%float; (1 / 6)%float; 0%float; 0%float;
     (1 / 6)%float; (1 / 6)%float; (1 / 6)%float; 0%float]
  /\ Float64.sum
       ((fun next => (TransitionProbability six_successors next ["a"]).1)
          <$> tokens six_successors)
     = 0x1.fffffffffffffp-1%float
  /\ (0x1.fffffffffffffp-1 <? 1)%float = true
  /\ Float64.exact_sum
       ((fun next => (TransitionProbability six_successors next ["a"]).1)
          <$> tokens six_successors)
     = Some (18014398509481983 # 18014398509481984)%Q.
Proof.
  vm_compute. repeat split.
Qed.


(** ** Rows that are absent *)

(** C7, as the code has it. On a chain made by [NewChain] and [Add], when
    the key of [current] was interned as the key of a current state and
    [next] is interned, the row of [current]'s index is present and its sum
    is positive, so the quotient [TransitionProbability] returns is not
    0/0. *)
Theorem TransitionProbability_row_present (order : Z) (inputs : list (list string))
    (chain : Chain) (next : string) (current : NGram) :
  AddAll (NewChain order) inputs = Ok chain ->
  transitions order inputs <= GoInt.max_int ->
  Z.of_nat (length current) = order ->
  key current ∈ states_of order inputs ->
  next ∈ interned_by order inputs ->
  exists (i j : Z) (arr : gmap Z Z),
    spool_get (statePool chain) (key current) = (i, true)
    /\ spool_get (statePool chain) next = (j, true)
    /\ frequencyMat chain !! i = Some arr
    /\ 0 < sum arr
    /\ TransitionProbability chain next current
       = ((Float64.of_int (at_key arr j) / Float64.of_int (sum arr))%float, None).
Proof.
  intros Hchain Hbound Hlen Hkey Hnext.
  assert (Order chain = order) as Horder by apply (AddAll_Order _ _ _ Hchain).
  destruct (trained_state_row order inputs chain current Hchain Hbound Hkey)
    as (i & arr & Hi & Harr & Hpos & Hsum & _).
  apply (trained_interned order inputs chain next Hchain) in Hnext as [j Hj].
  exists i, j, arr.
  split; [by apply spool_get_Some|]. split; [by apply spool_get_Some|].
  split; [done|]. split; [lia|].
  unfold TransitionProbability.
  rewrite (TransitionProbability_in_known _ _ _ chain next current i j) by congruence.
  by rewrite (row_present chain i arr Harr).
Qed.

Lemma TransitionProbability_row_present_witness :
  exists (i j : Z) (arr : gmap Z Z),
    spool_get (statePool (trained 1 [["the"; "cat"; "sat"]])) (key ["the"]) = (i, true)
    /\ spool_get (statePool (trained 1 [["the"; "cat"; "sat"]])) "cat" = (j, true)
    /\ frequencyMat (trained 1 [["the"; "cat"; "sat"]]) !! i = Some arr
    /\ 0 < sum arr
    /\ TransitionProbability (trained 1 [["the"; "cat"; "sat"]]) "cat" ["the"]
       = ((Float64.of_int (at_key arr j) / Float64.of_int (sum arr))%float, None).
Proof.
  apply (TransitionProbability_row_present 1 [["the"; "cat"; "sat"]]
           (trained 1 [["the"; "cat"; "sat"]]) "cat" ["the"]).
  - vm_compute. reflexivity.
  - vm_compute. discriminate.
  - vm_compute. reflexivity.
  - vm_compute. apply elem_of_cons. right. by left.
  - vm_compute. do 3 (apply elem_of_cons; right). by left.
Defined.

(** C7 as stated fails: after the, cat, sat at order 1 the END sentinel is
    interned, as a next token only. With [current] the n-gram of END and
    [next] the token the, both lookups succeed, the row of [current]'s
    index is absent, and [TransitionProbability] returns 0/0, not a
    number. *)
Lemma TransitionProbability_row_absent :
  Add (NewChain 1) ["the"; "cat"; "sat"] = Ok (trained 1 [["the"; "cat"; "sat"]])
  /\ Z.of_nat (length [EndToken]) = Order (trained 1 [["the"; "cat"; "sat"]])
  /\ spool_get (statePool (trained 1 [["the"; "cat"; "sat"]])) (key [EndToken]) = (4, true)
  /\ spool_get (statePool (trained 1 [["the"; "cat"; "sat"]])) "the" = (1, true)
  /\ frequencyMat (trained 1 [["the"; "cat"; "sat"]]) !! 4 = None
  /\ sum (row (trained 1 [["the"; "cat"; "sat"]]) 4) = 0
  /\ TransitionProbability (trained 1 [["the"; "cat"; "sat"]]) "the" [EndToken]
     = (nan, None).
Proof. vm_compute. repeat split. Qed.


(** ** Sampling *)

Lemma exact_sum_nonneg (pairs : list (Z * Z)) :
  (forall e, e ∈ pairs -> 0 <= e.2) -> 0 <= exact_sum pairs.
Proof.
  induction pairs as [|e pairs IH]; intros Hent; simpl; [lia|].
  assert (0 <= e.2) by (apply Hent; by left).
  assert (0 <= exact_sum pairs); [|lia]. apply IH. intros e' He'. apply Hent. by right.
Qed.

(** On pairs of non-negative counts whose sum is an [int], a draw below the
    sum makes the subtraction loop return from one of its turns. *)
Lemma pick_returns (names : gmap Z string) (pairs : list (Z * Z)) : forall randN,
  (forall e, e ∈ pairs -> 0 <= e.2) ->
  exact_sum pairs <= GoInt.max_int ->
  0 <= randN < exact_sum pairs ->
  is_Some (pick names pairs randN).
Proof.
  induction pairs as [|[k freq] pairs IH]; intros randN Hent Hmax Hrand; simpl in *.
  - lia.
  - assert (0 <= freq) by (apply (Hent (k, freq)); by left).
    assert (0 <= exact_sum pairs).
    { apply exact_sum_nonneg. intros e He. apply Hent. by right. }
    assert (GoInt.sub randN freq = randN - freq) as ->.
    { apply wrap_in_range.
      unfold GoInt.in_range, GoInt.min_int, GoInt.max_int in *. lia. }
    destruct (Z.leb_spec (randN - freq) 0); [done|].
    apply IH; [|lia|lia]. intros e He. apply Hent. by right.
Qed.

Lemma orderedPairs_total (arr : gmap Z Z) : exact_sum (orderedPairs arr) = total arr.
Proof.
  unfold orderedPairs, orderedPairs_over, total.
  apply exact_sum_perm, sort_Slice_perm.
Qed.

Lemma orderedPairs_elem (arr : gmap Z Z) k v :
  (k, v) ∈ orderedPairs arr <-> arr !! k = Some v.
Proof.
  unfold orderedPairs, orderedPairs_over.
  by rewrite sort_Slice_perm, elem_of_map_to_list.
Qed.

(** C10, as the code has it. On a chain made by [NewChain] and [Add], when
    [GenerateDeterministic] reaches the sampling step with a current state
    whose key was interned as the key of a current state, the row sum it
    hands to [Intn] is positive, and with a generator that keeps the
    contract of [Intn] the subtraction loop returns a token from one of
    its turns. *)
Theorem Generate_samples_in_loop {G : Type} `{PRNG G} `{!PRNGInRange G}
    (order : Z) (inputs : list (list string)) (chain : Chain)
    (current : NGram) (token : string) (prng : G) :
  AddAll (NewChain order) inputs = Ok chain ->
  transitions order inputs <= GoInt.max_int ->
  Z.of_nat (length current) = order ->
  last current = Some token -> token <> EndToken ->
  key current ∈ states_of order inputs ->
  exists (i randN : Z) (prng' : G) (next : string),
    spool_get (statePool chain) (key current) = (i, true)
    /\ 0 < sum (row chain i)
    /\ Intn prng (sum (row chain i)) = Ok (randN, prng')
    /\ pick (intMap (statePool chain)) (orderedPairs (row chain i)) randN = Some next
    /\ GenerateDeterministic chain current prng = Ok ((next, None), prng').
Proof.
  intros Hchain Hbound Hlen Hlast Htoken Hkey.
  assert (Order chain = order) as Horder by apply (AddAll_Order _ _ _ Hchain).
  destruct (trained_state_row order inputs chain current Hchain Hbound Hkey)
    as (i & arr & Hi & Harr & Hpos & Hsum & Hent).
  destruct (trained_ok order inputs chain Hchain Hbound) as (pairs & Hpairs & Hc).
  destruct (ok_rows _ _ Hc i arr Harr) as (_ & Htot & _).
  rewrite (history_length order inputs pairs Hpairs) in Htot.
  apply row_present in Harr.
  destruct (Intn_in_range prng (sum arr)) as (randN & prng' & Hdraw & Hrand); [lia|].
  destruct (pick_returns (intMap (statePool chain)) (orderedPairs arr) randN)
    as [next Hnext].
  - intros [k v] Hkv%orderedPairs_elem. destruct (Hent k v Hkv). simpl. lia.
  - rewrite orderedPairs_total. lia.
  - rewrite orderedPairs_total. lia.
  - exists i, randN, prng', next. rewrite Harr.
    split; [by apply spool_get_Some|]. split; [lia|]. split; [done|]. split; [done|].
    unfold GenerateDeterministic.
    rewrite Horder, <- Hlen, Z.eqb_refl, Hlast. simpl.
    rewrite bool_decide_eq_false_2 by done.
    rewrite (spool_get_Some _ _ _ Hi). simpl. rewrite Harr, Hdraw. simpl.
    by rewrite Hnext.
Qed.

Lemma Generate_samples_in_loop_witness :
  exists (i randN : Z) (prng' : Z) (next : string),
    spool_get (statePool (trained 1 [["the"; "cat"; "sat"]])) (key ["cat"]) = (i, true)
    /\ 0 < sum (row (trained 1 [["the"; "cat"; "sat"]]) i)
    /\ Intn 42 (sum (row (trained 1 [["the"; "cat"; "sat"]]) i)) = Ok (randN, prng')
    /\ pick (intMap (statePool (trained 1 [["the"; "cat"; "sat"]])))
         (orderedPairs (row (trained 1 [["the"; "cat"; "sat"]]) i)) randN = Some next
    /\ GenerateDeterministic (trained 1 [["the"; "cat"; "sat"]]) ["cat"] 42
       = Ok ((next, None), prng').
Proof.
  apply (Generate_samples_in_loop 1 [["the"; "cat"; "sat"]]
           (trained 1 [["the"; "cat"; "sat"]]) ["cat"] "cat" 42).
  - vm_compute. reflexivity.
  - vm_compute. discriminate.
  - vm_compute. reflexivity.
  - vm_compute. reflexivity.
  - discriminate.
  - vm_compute. do 2 (apply elem_of_cons; right). by left.
Defined.

(** C10 as stated fails when a token holds the delimiter of keys. After
    one [Add] of the token a_b at order 2, the n-gram a, b has the chain's
    order, does not end in the END sentinel, and its key a_b is interned,
    as a next token; its row is absent, so the sum handed to [Intn] is 0,
    on which [math/rand] panics, and the loop has no pair to return
    from. *)
Lemma Generate_samples_nothing :
  Add (NewChain 2) ["a_b"] = Ok (trained 2 [["a_b"]])
  /\ Z.of_nat (length ["a"; "b"]) = Order (trained 2 [["a_b"]])
  /\ last ["a"; "b"] = Some "b"
  /\ spool_get (statePool (trained 2 [["a_b"]])) (key ["a"; "b"]) = (1, true)
  /\ sum (row (trained 2 [["a_b"]]) 1) = 0
  /\ orderedPairs (row (trained 2 [["a_b"]]) 1) = []
  /\ pick (intMap (statePool (trained 2 [["a_b"]])))
       (orderedPairs (row (trained 2 [["a_b"]]) 1)) 0 = None
  /\ GenerateDeterministic (trained 2 [["a_b"]]) ["a"; "b"] 42
     = Panic "invalid argument to Intn".
Proof. vm_compute. repeat split. Qed.

(** * Further properties *)

(** ** Windows *)

Lemma MakePairs_from_spec (tokens : list string) (order : nat) (n : nat) :
  forall i acc r,
  MakePairs_from tokens order i n acc = Ok r ->
  exists ws, r = acc ++ ws /\ length ws = n /\
    forall k w, ws !! k = Some w ->
      CurrentState w = take order (drop (i + k) tokens)
      /\ tokens !! (i + k + order)%nat = Some (NextState w).
Proof.
  induction n as [|n IH]; intros i acc r; simpl.
  - intros [= <-]. exists []. rewrite app_nil_r. split; [done|]. split; [done|].
    intros k w. by rewrite lookup_nil.
  - case_bool_decide; [|done].
    destruct (tokens !! (i + order)%nat) as [next|] eqn:Hnext; [|done].
    intros Hr. apply IH in Hr as (ws & -> & Hlen & Hws).
    eexists (_ :: ws). split; [by rewrite <- app_assoc|]. split; [simpl; lia|].
    intros [|k] w; simpl.
    + intros [= <-]. simpl. by rewrite Nat.add_0_r.
    + intros Hk. apply Hws in Hk.
      by replace (i + S k)%nat with (S i + k)%nat by lia.
Qed.

(** X3. With a non-negative order, [MakePairs] returns one pair for every
    index that leaves [order] tokens and one more to its right (none when
    the tokens are too few): the pair at index [k] holds the [order] tokens
    from [k] as its current state and the token after them as its next. *)
Theorem MakePairs_windows (tokens : list string) (order : Z) :
  0 <= order ->
  exists pairs,
    MakePairs tokens order = Ok pairs
    /\ length pairs = (length tokens - Z.to_nat order)%nat
    /\ forall k w, pairs !! k = Some w ->
         CurrentState w = take (Z.to_nat order) (drop k tokens)
         /\ tokens !! (k + Z.to_nat order)%nat = Some (NextState w).
Proof.
  intros Horder. unfold MakePairs.
  apply Z.ltb_ge in Horder as Horder'. rewrite Horder'.
  destruct (Z.leb_spec (Z.of_nat (length tokens) - order) 0) as [Hn|Hn].
  - exists []. split; [done|]. split; [simpl; lia|]. intros k w. by rewrite lookup_nil.
  - destruct (MakePairs_from_total (Z.to_nat (Z.of_nat (length tokens) - order))
                tokens (Z.to_nat order) 0%nat []) as [r Hr]; [lia|].
    rewrite Hr. exists r. split; [done|].
    apply MakePairs_from_spec in Hr as (ws & -> & Hlen & Hws). simpl.
    split; [lia|]. intros k w Hk. by apply Hws in Hk.
Qed.

Lemma MakePairs_windows_witness :
  exists pairs,
    MakePairs ["a"; "b"; "c"; "d"] 2 = Ok pairs
    /\ length pairs = (length ["a"; "b"; "c"; "d"] - Z.to_nat 2)%nat
    /\ forall k w, pairs !! k = Some w ->
         CurrentState w = take (Z.to_nat 2) (drop k ["a"; "b"; "c"; "d"])
         /\ ["a"; "b"; "c"; "d"] !! (k + Z.to_nat 2)%nat = Some (NextState w).
Proof. apply (MakePairs_windows ["a"; "b"; "c"; "d"] 2). lia. Defined.

Lemma wrap_overflow (z : Z) :
  GoInt.max_int < z < 2 ^ 64 -> GoInt.wrap z = z - 2 ^ 64.
Proof.
  unfold GoInt.wrap, GoInt.max_int. intros Hz.
  rewrite <- (Z.mod_unique (z + 2 ^ 63) (2 ^ 64) 1 (z - 2 ^ 63)); lia.
Qed.

(** X4. A negative order is accepted by [NewChain] and makes every later
    [Add] panic, when it makes the padding. [MakePairs] with a negative
    order panics on its first slice expression, unless the loop bound
    [len(tokens)-order] passes the largest [int]: then the bound wraps to a
    negative number, the loop has no turn and [MakePairs] returns no pair
    (so with the smallest [int] as the order, whatever the tokens). *)
Theorem negative_order_panics (order : Z) (tokens input : list string) (c : Chain) :
  GoInt.min_int <= order < 0 -> Order c = order ->
  Z.of_nat (length tokens) <= GoInt.max_int ->
  Add c input = Panic "makeslice: len out of range"
  /\ MakePairs tokens order
     = if Z.of_nat (length tokens) - order <=? GoInt.max_int
       then Panic "slice bounds out of range" else Ok [].
Proof.
  intros Horder Hc Hlen. split.
  - unfold Add, Add_pairs. rewrite Hc, !array_negative by lia. done.
  - unfold MakePairs. destruct (Z.ltb_spec order 0) as [_|]; [|lia].
    unfold GoInt.sub.
    destruct (Z.leb_spec (Z.of_nat (length tokens) - order) GoInt.max_int) as [Hn|Hn].
    + rewrite wrap_in_range
        by (unfold GoInt.in_range, GoInt.min_int, GoInt.max_int in *; lia).
      by destruct (Z.leb_spec (Z.of_nat (length tokens) - order) 0); [lia|].
    + rewrite wrap_overflow
        by (unfold GoInt.min_int, GoInt.max_int in *; lia).
      destruct (Z.leb_spec (Z.of_nat (length tokens) - order - 2 ^ 64) 0); [done|].
      unfold GoInt.min_int, GoInt.max_int in *. lia.
Qed.

Lemma negative_order_panics_witness :
  Add (NewChain (-1)) ["a"] = Panic "makeslice: len out of range"
  /\ MakePairs ["a"; "b"] (-1) = Panic "slice bounds out of range".
Proof.
  refine (negative_order_panics (-1) ["a"; "b"] ["a"] (NewChain (-1)) _ _ _).
  - unfold GoInt.min_int. lia.
  - reflexivity.
  - unfold GoInt.max_int. simpl. lia.
Defined.

(** ** Keys of a row *)

Lemma Zltb_trans a b c : (a <? b) = true -> (b <? c) = true -> (a <? c) = true.
Proof. rewrite !Z.ltb_lt. lia. Qed.

Lemma Zltb_total (a b : Z) : a <> b -> (a <? b) = false -> (b <? a) = true.
Proof. rewrite Z.ltb_lt, Z.ltb_ge. lia. Qed.

(** X5. Whatever order the range visits a row in, [orderedKeys] returns the
    keys of the row, each once, in ascending order; the list is the same
    for every visiting order. *)
Theorem orderedKeys_deterministic (s : gmap Z Z) (visit : list (Z * Z)) :
  ranges s visit ->
  (forall k, k ∈ orderedKeys_over visit <-> is_Some (s !! k))
  /\ StronglySorted Z.lt (orderedKeys_over visit)
  /\ orderedKeys_over visit = orderedKeys s.
Proof.
  intros Hvisit. unfold ranges in Hvisit.
  assert (forall l : list (Z * Z), NoDup l.*1 -> StronglySorted Z.lt (orderedKeys_over l))
    as Hsorted.
  { intros l Hl. unfold orderedKeys_over.
    pose proof (sort_Slice_sorted Z.ltb Zltb_trans Zltb_total l.*1 Hl) as Hs.
    induction Hs as [|x xs _ IH Hx]; constructor; [done|].
    eapply Forall_impl; [exact Hx|]. intros y. by rewrite Z.ltb_lt. }
  assert (orderedKeys_over visit ≡ₚ (map_to_list s).*1) as Hperm.
  { unfold orderedKeys_over. by rewrite sort_Slice_perm, Hvisit. }
  split; [|split].
  - intros k. rewrite Hperm, list_elem_of_fmap. split.
    + intros [[k' v] [-> Hkv%elem_of_map_to_list]]. by exists v.
    + intros [v Hv]. exists (k, v). by rewrite elem_of_map_to_list.
  - apply Hsorted. rewrite Hvisit. apply NoDup_fst_map_to_list.
  - apply (StronglySorted_unique_strong Z.lt).
    + intros a b _ _. lia.
    + apply Hsorted. rewrite Hvisit. apply NoDup_fst_map_to_list.
    + apply Hsorted, NoDup_fst_map_to_list.
    + rewrite Hperm. unfold orderedKeys, orderedKeys_over. by rewrite sort_Slice_perm.
Qed.

Lemma orderedKeys_deterministic_witness :
  (forall k, k ∈ orderedKeys_over [(8, 2); (3, 2); (5, 7)]
     <-> is_Some (({[3 := 2; 5 := 7; 8 := 2]} : gmap Z Z) !! k))
  /\ StronglySorted Z.lt (orderedKeys_over [(8, 2); (3, 2); (5, 7)])
  /\ orderedKeys_over [(8, 2); (3, 2); (5, 7)] = orderedKeys {[3 := 2; 5 := 7; 8 := 2]}.
Proof.
  apply (orderedKeys_deterministic {[3 := 2; 5 := 7; 8 := 2]} [(8, 2); (3, 2); (5, 7)]).
  unfold ranges. vm_compute map_to_list. apply (Permutation_rev [_; _; _]).
Defined.

(** ** Keys of n-grams *)

Lemma append_nil (s : string) : "" +:+ s = s.
Proof. reflexivity. Qed.

Lemma append_cons (a : ascii) (x s : string) : String a x +:+ s = String a (x +:+ s).
Proof. reflexivity. Qed.

Lemma append_delimiter_inj (x x' r r' : string) :
  delimiter_free x = true -> delimiter_free x' = true ->
  x +:+ "_" +:+ r = x' +:+ "_" +:+ r' -> x = x' /\ r = r'.
Proof.
  revert x'. induction x as [|a x IH]; intros [|c x']; simpl;
    repeat (rewrite append_nil || rewrite append_cons).
  - by intros _ _ [= ->].
  - intros _ Hx' [= <- _]. by rewrite bool_decide_eq_true_2 in Hx'.
  - intros Hx _ [= -> _]. by rewrite bool_decide_eq_true_2 in Hx.
  - intros [_ Hx]%andb_prop [_ Hx']%andb_prop [= -> Heq].
    by destruct (IH x' Hx Hx' Heq) as [-> ->].
Qed.

(** X6. Two n-grams of the same length whose tokens do not hold the
    delimiter have the same key only if they are the same n-gram. *)
Theorem key_injective (a b : NGram) :
  length a = length b ->
  Forall (fun t => delimiter_free t = true) a ->
  Forall (fun t => delimiter_free t = true) b ->
  key a = key b -> a = b.
Proof.
  unfold key. revert b. induction a as [|x a IH]; intros [|y b]; try done.
  intros [= Hlen] [Hx Ha]%Forall_cons [Hy Hb]%Forall_cons.
  destruct a as [|x' a], b as [|y' b]; try done.
  - simpl. by intros ->.
  - change (x +:+ "_" +:+ Join (x' :: a) "_" = y +:+ "_" +:+ Join (y' :: b) "_"
            -> x :: x' :: a = y :: y' :: b).
    intros [-> Heq]%append_delimiter_inj; [|done..].
    f_equal. by apply IH.
Qed.

Lemma key_injective_witness : ["the"; "cat"] = ["the"; "cat"].
Proof.
  apply (key_injective ["the"; "cat"] ["the"; "cat"]);
    [reflexivity|by repeat constructor..|reflexivity].
Defined.

(** ** Generation at order 0 *)

(** X7. On a chain of order 0 no call of [GenerateDeterministic] returns a
    token: the empty n-gram, the only one of the chain's order, makes the
    index of its last token panic, and every other n-gram is refused for
    its length. *)
Theorem Generate_order_zero {G : Type} `{PRNG G} (chain : Chain)
    (current : NGram) (prng : G) :
  Order chain = 0 ->
  GenerateDeterministic chain current prng
  = match current with
    | [] => Panic "index out of range [-1]"
    | _ :: _ => Ok (("", Some "N-gram length does not match chain order"), prng)
    end.
Proof.
  intros Horder. unfold GenerateDeterministic. rewrite Horder.
  destruct current as [|token current]; [done|].
  destruct (Z.eqb_spec (Z.of_nat (length (token :: current))) 0) as [Hlen|_]; [|done].
  simpl in Hlen. lia.
Qed.

Lemma Generate_order_zero_witness :
  GenerateDeterministic (trained 0 [["a"; "b"]]) [] 42 = Panic "index out of range [-1]".
Proof. apply (Generate_order_zero (trained 0 [["a"; "b"]]) [] 42). vm_compute. reflexivity. Defined.

(** ** Reverse maps of snapshots *)

(** X8. When the pool of the decoded document maps no two keys to one
    index, the reverse map [UnmarshalJSON] builds is the inverse of the
    forward map, in whatever order the range visits it. *)
Theorem UnmarshalJSON_inverse
    (json_Unmarshal : string -> error + chainJSON.t)
    (range_SpoolMap : gmap string Z -> list (string * Z))
    (receiver : Chain) (b : string) (obj : chainJSON.t) (i : Z) (k : string) :
  (forall m, ranges m (range_SpoolMap m)) ->
  json_Unmarshal b = inr obj ->
  (forall k k' i, chainJSON.SpoolMap obj !! k = Some i ->
     chainJSON.SpoolMap obj !! k' = Some i -> k = k') ->
  intMap (statePool (UnmarshalJSON json_Unmarshal range_SpoolMap receiver b).1) !! i
    = Some k
  <-> chainJSON.SpoolMap obj !! k = Some i.
Proof.
  intros Hrange Hb Hinj. unfold UnmarshalJSON. rewrite Hb. simpl.
  pose proof (Hrange (chainJSON.SpoolMap obj)) as Hvisit. unfold ranges in Hvisit.
  assert (forall k i, (k, i) ∈ range_SpoolMap (chainJSON.SpoolMap obj)
            <-> chainJSON.SpoolMap obj !! k = Some i) as Hin.
  { intros k0 i0. by rewrite Hvisit, elem_of_map_to_list. }
  unfold invert_over. split.
  - intros [Hacc|Hl]%invert_from_elem; [by rewrite lookup_empty in Hacc|]. by apply Hin.
  - intros Hk. apply invert_from_lookup; [|by apply Hin].
    apply NoDup_fmap_2_strong; [|rewrite Hvisit; apply NoDup_map_to_list].
    intros [k1 i1] [k2 i2] H1%Hin H2%Hin. simpl. intros <-. f_equal. by eapply Hinj.
Qed.

Lemma UnmarshalJSON_inverse_witness :
  intMap (statePool (UnmarshalJSON Json.Unmarshal map_to_list (NewChain 0)
                       (Json.text "{'int':1,'spool_map':{'a':0,'b':1},'freq_mat':{}}")).1)
    !! 1 = Some "b"
  <-> ({["a" := 0; "b" := 1]} : gmap string Z) !! "b" = Some 1.
Proof.
  refine (UnmarshalJSON_inverse Json.Unmarshal map_to_list (NewChain 0)
            (Json.text "{'int':1,'spool_map':{'a':0,'b':1},'freq_mat':{}}")
            {| chainJSON.Order := 1; chainJSON.SpoolMap := {["a" := 0; "b" := 1]};
               chainJSON.FreqMat := ∅ |} 1 "b" _ _ _).
  - intros m. apply ranges_map_to_list.
  - vm_compute. reflexivity.
  - simpl.
    assert (forall s j, ({["a" := 0; "b" := 1]} : gmap string Z) !! s = Some j ->
              (s = "a" /\ j = 0) \/ (s = "b" /\ j = 1)) as Hcases.
    { intros s j Hs. destruct (decide (s = "a")) as [->|?]; [left; by simplify_map_eq|].
      destruct (decide (s = "b")) as [->|?]; [right; by simplify_map_eq|].
      by simplify_map_eq. }
    intros k k' i [[-> ->]|[-> ->]]%Hcases [[-> ?]|[-> ?]]%Hcases; done.
Defined.

(** ** Which pair the subtraction loop returns *)

Lemma exact_sum_app (l1 l2 : list (Z * Z)) :
  exact_sum (l1 ++ l2) = exact_sum l1 + exact_sum l2.
Proof. induction l1 as [|e l1 IH]; simpl; lia. Qed.

(** X9. The subtraction loop returns the first pair at which the counts
    added up so far reach the draw: after pairs [pre] of sum [s], the pair
    of count [freq] is returned for every draw above [s] and up to
    [s + freq]; the first pair is returned for the draw 0 as well. *)
Theorem pick_first_reaching (names : gmap Z string) (pre post : list (Z * Z))
    (k freq randN : Z) :
  (forall e, e ∈ pre -> 0 <= e.2) -> 0 <= freq ->
  exact_sum pre + freq <= GoInt.max_int ->
  0 <= randN ->
  pre = [] \/ exact_sum pre < randN ->
  randN <= exact_sum pre + freq ->
  pick names (pre ++ (k, freq) :: post) randN = Some (default "" (names !! k)).
Proof.
  revert randN. induction pre as [|[k' freq'] pre IH];
    intros randN Hpre Hfreq Hmax Hrand Hlow Hhigh; simpl in *.
  - assert (GoInt.sub randN freq = randN - freq) as ->.
    { apply wrap_in_range.
      unfold GoInt.in_range, GoInt.min_int, GoInt.max_int in *. lia. }
    destruct (Z.leb_spec (randN - freq) 0); [done|lia].
  - assert (0 <= freq') by (apply (Hpre (k', freq')); by left).
    assert (0 <= exact_sum pre).
    { apply exact_sum_nonneg. intros e He. apply Hpre. by right. }
    destruct Hlow as [|Hlow]; [done|].
    assert (GoInt.sub randN freq' = randN - freq') as ->.
    { apply wrap_in_range.
      unfold GoInt.in_range, GoInt.min_int, GoInt.max_int in *. lia. }
    destruct (Z.leb_spec (randN - freq') 0); [lia|].
    apply IH; [|done|lia|lia| |lia].
    + intros e He. apply Hpre. by right.
    + destruct pre; [by left|right; lia].
Qed.

Lemma pick_first_reaching_witness :
  pick {[7 := "x"; 8 := "y"; 9 := "z"]} ([(7, 3); (8, 2)] ++ (9, 2) :: []) 6 = Some "z".
Proof.
  refine (pick_first_reaching {[7 := "x"; 8 := "y"; 9 := "z"]} [(7, 3); (8, 2)] [] 9 2 6
            _ _ _ _ _ _).
  - intros e He. repeat (apply elem_of_cons in He as [->|He]; [simpl; lia|]).
    by apply elem_of_nil in He.
  - lia.
  - vm_compute. discriminate.
  - lia.
  - right. simpl. lia.
  - simpl. lia.
Defined.

Lemma pick_elem (names : gmap Z string) (pairs : list (Z * Z)) : forall randN token,
  pick names pairs randN = Some token ->
  exists e, e ∈ pairs /\ token = default "" (names !! e.1).
Proof.
  induction pairs as [|[k freq] pairs IH]; intros randN token; simpl; [done|].
  destruct (GoInt.sub randN freq <=? 0).
  - intros [= <-]. exists (k, freq). split; [by left|done].
  - intros (e & He & ->)%IH. exists e. split; [by right|done].
Qed.

Lemma pick_app (names : gmap Z string) (pairs post : list (Z * Z)) : forall randN,
  is_Some (pick names pairs randN) ->
  pick names (pairs ++ post) randN = pick names pairs randN.
Proof.
  induction pairs as [|[k freq] pairs IH]; intros randN; simpl.
  - by intros [? ?].
  - destruct (GoInt.sub randN freq <=? 0); [done|]. apply IH.
Qed.

Lemma pick_returns_upto (names : gmap Z string) (pairs : list (Z * Z)) : forall randN,
  pairs <> [] ->
  (forall e, e ∈ pairs -> 0 <= e.2) ->
  exact_sum pairs <= GoInt.max_int ->
  0 <= randN <= exact_sum pairs ->
  is_Some (pick names pairs randN).
Proof.
  induction pairs as [|[k freq] pairs IH]; intros randN Hne Hent Hmax Hrand; [done|].
  simpl in *.
  assert (0 <= freq) by (apply (Hent (k, freq)); by left).
  assert (0 <= exact_sum pairs).
  { apply exact_sum_nonneg. intros e He. apply Hent. by right. }
  assert (GoInt.sub randN freq = randN - freq) as ->.
  { apply wrap_in_range.
    unfold GoInt.in_range, GoInt.min_int, GoInt.max_int in *. lia. }
  destruct (Z.leb_spec (randN - freq) 0); [done|].
  apply IH; [|intros e He; apply Hent; by right|lia|lia].
  intros ->. simpl in *. lia.
Qed.

(** X10. On a chain made by [NewChain] and [Add], when the row of the
    current state has several successors and the one that comes last in the
    order of [orderedPairs] was seen once, [GenerateDeterministic] never
    returns it: with a generator that keeps the contract of [Intn], the
    token returned is one of the successors before it. *)
Theorem Generate_never_last {G : Type} `{PRNG G} `{!PRNGInRange G}
    (order : Z) (inputs : list (list string)) (chain : Chain)
    (current : NGram) (token : string) (prng : G)
    (i j : Z) (pre : list (Z * Z)) :
  AddAll (NewChain order) inputs = Ok chain ->
  transitions order inputs <= GoInt.max_int ->
  Z.of_nat (length current) = order ->
  last current = Some token -> token <> EndToken ->
  stringMap (statePool chain) !! key current = Some i ->
  orderedPairs (row chain i) = pre ++ [(j, 1)] -> pre <> [] ->
  exists (e : Z * Z) (prng' : G),
    e ∈ pre
    /\ GenerateDeterministic chain current prng = Ok ((name chain e.1, None), prng').
Proof.
  intros Hchain Hbound Hlen Hlast Htoken Hi Hpairs Hpre.
  assert (Order chain = order) as Horder by apply (AddAll_Order _ _ _ Hchain).
  destruct (trained_ok order inputs chain Hchain Hbound) as (pairs & Hhist & Hc).
  destruct (frequencyMat chain !! i) as [arr|] eqn:Harr.
  2:{ unfold row in Hpairs. rewrite Harr in Hpairs. simpl in Hpairs.
      unfold orderedPairs, orderedPairs_over in Hpairs.
      rewrite map_to_list_empty in Hpairs. by destruct pre. }
  destruct (ok_rows _ _ Hc i arr Harr) as (_ & Htot & Hent).
  rewrite (history_length order inputs pairs Hhist) in Htot.
  pose proof (row_present chain i arr Harr) as Hrow. rewrite Hrow in Hpairs.
  assert (total arr = exact_sum pre + 1) as Htotal.
  { rewrite <- orderedPairs_total, Hpairs, exact_sum_app. simpl. lia. }
  assert (forall e, e ∈ pre -> 0 <= e.2) as Hnn.
  { intros [k v] He. assert ((k, v) ∈ orderedPairs arr) as Hin.
    { rewrite Hpairs. apply elem_of_app. by left. }
    apply orderedPairs_elem in Hin. destruct (Hent k v Hin). simpl. lia. }
  assert (0 <= exact_sum pre) by by apply exact_sum_nonneg.
  assert (sum arr = total arr) as Hsum.
  { rewrite sum_wrap_total. apply wrap_in_range.
    unfold GoInt.in_range, GoInt.min_int, GoInt.max_int in *. lia. }
  destruct (Intn_in_range prng (sum arr)) as (randN & prng' & Hdraw & Hrand); [lia|].
  destruct (pick_returns_upto (intMap (statePool chain)) pre randN) as [next Hnext];
    [done|done|lia|lia|].
  destruct (pick_elem _ _ _ _ Hnext) as (e & He & ->).
  exists e, prng'. split; [done|].
  unfold GenerateDeterministic.
  rewrite Horder, <- Hlen, Z.eqb_refl, Hlast. simpl.
  rewrite bool_decide_eq_false_2 by done.
  rewrite (spool_get_Some _ _ _ Hi). simpl. rewrite Hrow, Hdraw. simpl.
  rewrite Hpairs, pick_app by by rewrite Hnext. by rewrite Hnext.
Qed.

(** ** Counts and occurrences *)

Lemma occurrences_snoc pairs p k t :
  occurrences (pairs ++ [p]) k t
  = occurrences pairs k t
    + (if bool_decide (key (CurrentState p) = k /\ NextState p = t) then 1 else 0).
Proof. induction pairs as [|q pairs IH]; simpl; lia. Qed.

Lemma departures_snoc pairs p k :
  departures (pairs ++ [p]) k
  = departures pairs k + (if bool_decide (key (CurrentState p) = k) then 1 else 0).
Proof. induction pairs as [|q pairs IH]; simpl; lia. Qed.

Lemma occurrences_bounds pairs k t : 0 <= occurrences pairs k t <= Z.of_nat (length pairs).
Proof.
  induction pairs as [|q pairs IH]; simpl; [lia|]. case_bool_decide; lia.
Qed.

Lemma departures_bounds pairs k : 0 <= departures pairs k <= Z.of_nat (length pairs).
Proof.
  induction pairs as [|q pairs IH]; simpl; [lia|]. case_bool_decide; lia.
Qed.

Lemma occurrences_positive pairs k t :
  1 <= occurrences pairs k t ->
  exists p, p ∈ pairs /\ key (CurrentState p) = k /\ NextState p = t.
Proof.
  induction pairs as [|q pairs IH]; simpl; [lia|]. case_bool_decide as Hq.
  - intros _. exists q. split; [by left|done].
  - intros Hocc. destruct IH as (p & Hp & Hkt); [lia|]. exists p. split; [by right|done].
Qed.

(** What one turn of [Add]'s loop leaves: the two pools, the two indices
    and the new table. *)
Lemma Add_pair_unfold c p :
  exists p1 ci p2 ni,
    spool_add (statePool c) (key (CurrentState p)) = (p1, ci)
    /\ spool_add p1 (NextState p) = (p2, ni)
    /\ Add_pair c p
       = {| Order := Order c; statePool := p2;
            frequencyMat :=
              <[ci := <[ni := GoInt.add (at_key (row c ci) ni) 1]> (row c ci)]>
                (frequencyMat c) |}.
Proof.
  unfold Add_pair.
  destruct (spool_add (statePool c) (key (CurrentState p))) as [p1 ci]. exists p1, ci.
  destruct (spool_add p1 (NextState p)) as [p2 ni]. by exists p2, ni.
Qed.

Lemma counts_ok_new order : counts_ok [] (NewChain order).
Proof.
  split; simpl.
  - apply pool_ok_empty.
  - intros i arr. by rewrite lookup_empty.
  - intros k t. unfold count_of. simpl. by rewrite lookup_empty.
  - intros k. unfold total_of. simpl. by rewrite lookup_empty.
Qed.

(** Rows and columns at indices the pool has not issued are empty. *)
Lemma counts_unissued pairs c i j :
  counts_ok pairs c ->
  (~ is_Some (intMap (statePool c) !! i) -> row c i = ∅)
  /\ (~ is_Some (intMap (statePool c) !! j) -> at_key (row c i) j = 0).
Proof.
  intros Hc. unfold row, at_key.
  destruct (frequencyMat c !! i) as [arr|] eqn:Harr; simpl.
  - destruct (counts_issued _ _ Hc i arr Harr) as [Hi Hcols]. split; [done|].
    intros Hj. destruct (arr !! j) as [count|] eqn:Hcount; [|done].
    destruct Hj. eauto.
  - split; [done|]. intros _. by rewrite lookup_empty.
Qed.

Lemma counts_ok_step pairs c p :
  counts_ok pairs c -> Z.of_nat (length pairs) < GoInt.max_int ->
  counts_ok (pairs ++ [p]) (Add_pair c p).
Proof.
  intros Hc Hlen. pose proof (counts_pool _ _ Hc) as Hp.
  destruct (Add_pair_unfold c p) as (p1 & ci & p2 & ni & H1 & H2 & ->).
  destruct (spool_add_spec _ _ _ _ Hp H1) as (Hp1 & Hci1 & Hmono1 & _).
  destruct (spool_add_spec _ _ _ _ Hp1 H2) as (Hp2 & Hni & Hmono2 & _).
  assert (forall s x, stringMap (statePool c) !! s = Some x -> stringMap p2 !! s = Some x)
    as Hmono by eauto.
  assert (stringMap p2 !! key (CurrentState p) = Some ci) as Hci by eauto.
  assert (forall s x, stringMap (statePool c) !! s = None -> stringMap p2 !! s = Some x ->
            ~ is_Some (intMap (statePool c) !! x)) as Hfresh.
  { intros s x Hs Hx [s' Hs']. apply (pool_inverse _ Hp) in Hs'.
    assert (s' = s) as -> by (eapply pool_injective; eauto). congruence. }
  assert (forall k t i j, stringMap p2 !! k = Some i -> stringMap p2 !! t = Some j ->
            at_key (row c i) j = count_of c k t) as Hcount.
  { intros k t i j Hk Ht. unfold count_of.
    destruct (stringMap (statePool c) !! k) as [i'|] eqn:Hk'.
    - assert (i' = i) as -> by (apply Hmono in Hk'; congruence).
      destruct (stringMap (statePool c) !! t) as [j'|] eqn:Ht'.
      + assert (j' = j) as -> by (apply Hmono in Ht'; congruence). done.
      + by apply (counts_unissued pairs c i j Hc), (Hfresh t).
    - destruct (counts_unissued pairs c i j Hc) as [Hempty _].
      rewrite Hempty by (by apply (Hfresh k)).
      unfold at_key. by rewrite lookup_empty. }
  assert (forall k i, stringMap p2 !! k = Some i -> total (row c i) = total_of c k) as Htotal.
  { intros k i Hk. unfold total_of.
    destruct (stringMap (statePool c) !! k) as [i'|] eqn:Hk'.
    - by assert (i' = i) as -> by (apply Hmono in Hk'; congruence).
    - destruct (counts_unissued pairs c i 0 Hc) as [Hempty _].
      rewrite Hempty by (by apply (Hfresh k)). apply total_empty. }
  set (arr := row c ci) in *.
  assert (GoInt.add (at_key arr ni) 1 = at_key arr ni + 1) as ->.
  { apply wrap_in_range. unfold arr.
    rewrite (Hcount _ _ _ _ Hci Hni), (counts_occurrences _ _ Hc).
    pose proof (occurrences_bounds pairs (key (CurrentState p)) (NextState p)).
    unfold GoInt.in_range, GoInt.min_int, GoInt.max_int in *. lia. }
  assert (forall i, row {| Order := Order c; statePool := p2;
                           frequencyMat := <[ci := <[ni := at_key arr ni + 1]> arr]>
                                             (frequencyMat c) |} i
                    = if decide (ci = i) then <[ni := at_key arr ni + 1]> arr else row c i)
    as Hrow.
  { intros i. unfold row at 1. simpl. destruct (decide (ci = i)) as [<-|Hne].
    - by rewrite lookup_insert_eq.
    - by rewrite lookup_insert_ne. }
  split.
  - done.
  - simpl. intros i a. destruct (decide (ci = i)) as [<-|Hne].
    + rewrite lookup_insert_eq. intros [= <-]. split.
      * exists (key (CurrentState p)). by apply (pool_inverse _ Hp2).
      * intros j count. destruct (decide (ni = j)) as [<-|Hj].
        -- intros _. exists (NextState p). by apply (pool_inverse _ Hp2).
        -- rewrite lookup_insert_ne by done. unfold arr, row.
           destruct (frequencyMat c !! ci) as [arr0|] eqn:Harr0; simpl.
           ++ intros Hcol. destruct (counts_issued _ _ Hc ci arr0 Harr0) as [_ Hcols].
              apply (pool_intMap_mono (statePool c) p2); eauto.
           ++ by rewrite lookup_empty.
    + rewrite lookup_insert_ne by done. intros Ha.
      destruct (counts_issued _ _ Hc i a Ha) as [Hi Hcols]. split.
      * apply (pool_intMap_mono (statePool c) p2); eauto.
      * intros j count Hcol. apply (pool_intMap_mono (statePool c) p2); eauto.
  - intros k t. rewrite occurrences_snoc, <- (counts_occurrences _ _ Hc).
    unfold count_of at 1. simpl.
    destruct (stringMap p2 !! k) as [i|] eqn:Hk.
    + destruct (stringMap p2 !! t) as [j|] eqn:Ht.
      * rewrite Hrow, <- (Hcount k t i j Hk Ht).
        destruct (decide (ci = i)) as [<-|Hne].
        -- assert (k = key (CurrentState p)) as -> by (eapply pool_injective; eauto).
           destruct (decide (ni = j)) as [<-|Hj].
           ++ assert (t = NextState p) as -> by (eapply pool_injective; eauto).
              rewrite bool_decide_eq_true_2 by done.
              unfold at_key. by rewrite lookup_insert_eq.
           ++ rewrite bool_decide_eq_false_2.
              ** unfold at_key, arr. rewrite lookup_insert_ne by done. lia.
              ** intros [_ <-]. congruence.
        -- rewrite bool_decide_eq_false_2; [lia|]. intros [<- _]. congruence.
      * assert (stringMap (statePool c) !! t = None) as Ht'.
        { apply eq_None_not_Some. intros [j Hj]. apply Hmono in Hj. congruence. }
        unfold count_of. rewrite Ht'.
        rewrite bool_decide_eq_false_2; [by destruct (stringMap (statePool c) !! k)|].
        intros [_ <-]. congruence.
    + assert (stringMap (statePool c) !! k = None) as Hk'.
      { apply eq_None_not_Some. intros [i Hi]. apply Hmono in Hi. congruence. }
      unfold count_of. rewrite Hk'.
      rewrite bool_decide_eq_false_2; [done|]. intros [<- _]. congruence.
  - intros k. rewrite departures_snoc, <- (counts_departures _ _ Hc).
    unfold total_of at 1. simpl.
    destruct (stringMap p2 !! k) as [i|] eqn:Hk.
    + rewrite Hrow, <- (Htotal k i Hk).
      destruct (decide (ci = i)) as [<-|Hne].
      * assert (k = key (CurrentState p)) as -> by (eapply pool_injective; eauto).
        rewrite bool_decide_eq_true_2 by done.
        rewrite total_insert, (total_delete (row c ci) ni). unfold arr. lia.
      * rewrite bool_decide_eq_false_2; [lia|]. intros <-. congruence.
    + assert (stringMap (statePool c) !! k = None) as Hk'.
      { apply eq_None_not_Some. intros [i Hi]. apply Hmono in Hi. congruence. }
      unfold total_of. rewrite Hk'.
      rewrite bool_decide_eq_false_2; [done|]. intros <-. congruence.
Qed.

Lemma counts_ok_foldl ps : forall pairs c,
  counts_ok pairs c -> Z.of_nat (length (pairs ++ ps)) <= GoInt.max_int ->
  counts_ok (pairs ++ ps) (foldl Add_pair c ps).
Proof.
  induction ps as [|p ps IH]; intros pairs c Hc Hlen; simpl.
  - by rewrite app_nil_r.
  - replace (pairs ++ p :: ps) with ((pairs ++ [p]) ++ ps) in *
      by (by rewrite <- app_assoc).
    apply IH; [|done].
    apply counts_ok_step; [done|]. rewrite !length_app in Hlen. simpl in Hlen. lia.
Qed.

Lemma trained_counts order inputs chain :
  AddAll (NewChain order) inputs = Ok chain ->
  transitions order inputs <= GoInt.max_int ->
  exists pairs, history order inputs = Ok pairs /\ counts_ok pairs chain.
Proof.
  intros Hchain Hlen. apply AddAll_history in Hchain as (pairs & Hpairs & ->).
  simpl in Hpairs. exists pairs. split; [done|].
  apply (counts_ok_foldl pairs [] (NewChain order) (counts_ok_new order)).
  simpl. by rewrite (history_length order inputs pairs Hpairs).
Qed.

Lemma occurrences_le_departures pairs k t : occurrences pairs k t <= departures pairs k.
Proof.
  induction pairs as [|q pairs IH]; simpl; [lia|].
  case_bool_decide as H1; case_bool_decide as H2; try lia.
  by destruct H1 as [H1 _].
Qed.

(** X11. On a chain made by [NewChain] and [Add], for an n-gram of the
    chain's order whose key is interned and an interned token [next],
    [TransitionProbability] returns the [float64] quotient of two counts of
    the training windows: how often [next] followed a state with the key of
    [current], over how often anything followed such a state. The first
    count is never above the second. *)
Theorem TransitionProbability_is_frequency (order : Z) (inputs : list (list string))
    (chain : Chain) (next : string) (current : NGram) :
  AddAll (NewChain order) inputs = Ok chain ->
  transitions order inputs <= GoInt.max_int ->
  Z.of_nat (length current) = order ->
  key current ∈ interned_by order inputs ->
  next ∈ interned_by order inputs ->
  TransitionProbability chain next current
  = ((Float64.of_int (seen order inputs (key current) next)
      / Float64.of_int (seen_from order inputs (key current)))%float, None)
  /\ 0 <= seen order inputs (key current) next <= seen_from order inputs (key current).
Proof.
  intros Hchain Hbound Hlen Hkey Hnext.
  assert (Order chain = order) as Horder by apply (AddAll_Order _ _ _ Hchain).
  apply (trained_interned order inputs chain _ Hchain) in Hkey as [i Hi].
  apply (trained_interned order inputs chain _ Hchain) in Hnext as [j Hj].
  destruct (trained_counts order inputs chain Hchain Hbound) as (pairs & Hhist & Hc).
  pose proof (history_length order inputs pairs Hhist) as Hn.
  unfold seen, seen_from. rewrite Hhist.
  pose proof (counts_occurrences _ _ Hc (key current) next) as Hocc.
  pose proof (counts_departures _ _ Hc (key current)) as Hdep.
  unfold count_of in Hocc. unfold total_of in Hdep. rewrite Hi in Hocc, Hdep.
  rewrite Hj in Hocc.
  pose proof (occurrences_bounds pairs (key current) next).
  pose proof (departures_bounds pairs (key current)).
  pose proof (occurrences_le_departures pairs (key current) next).
  split; [|lia].
  unfold TransitionProbability.
  rewrite (TransitionProbability_in_known _ _ _ chain next current i j) by congruence.
  rewrite Hocc, sum_wrap_total, Hdep, wrap_in_range; [done|].
  unfold GoInt.in_range, GoInt.min_int, GoInt.max_int in *. lia.
Qed.

Lemma TransitionProbability_is_frequency_witness :
  TransitionProbability (trained 1 [["the"; "cat"]; ["the"; "dog"]]) "cat" ["the"]
  = ((Float64.of_int (seen 1 [["the"; "cat"]; ["the"; "dog"]] (key ["the"]) "cat")
      / Float64.of_int (seen_from 1 [["the"; "cat"]; ["the"; "dog"]] (key ["the"])))%float,
     None)
  /\ 0 <= seen 1 [["the"; "cat"]; ["the"; "dog"]] (key ["the"]) "cat"
       <= seen_from 1 [["the"; "cat"]; ["the"; "dog"]] (key ["the"]).
Proof.
  apply (TransitionProbability_is_frequency 1 [["the"; "cat"]; ["the"; "dog"]]
           (trained 1 [["the"; "cat"]; ["the"; "dog"]]) "cat" ["the"]).
  - vm_compute. reflexivity.
  - vm_compute. discriminate.
  - vm_compute. reflexivity.
  - vm_compute. do 2 (apply elem_of_cons; right). by left.
  - vm_compute. do 3 (apply elem_of_cons; right). by left.
Defined.

(** X12. On a chain made by [NewChain] and [Add], from a current state
    with a recorded transition and with a generator that keeps the contract
    of [Intn], [GenerateDeterministic] returns a token that followed a
    state with the key of [current] in the training windows. *)
Theorem Generate_returns_seen {G : Type} `{PRNG G} `{!PRNGInRange G}
    (order : Z) (inputs : list (list string)) (chain : Chain)
    (current : NGram) (token : string) (prng : G) :
  AddAll (NewChain order) inputs = Ok chain ->
  transitions order inputs <= GoInt.max_int ->
  Z.of_nat (length current) = order ->
  last current = Some token -> token <> EndToken ->
  key current ∈ states_of order inputs ->
  exists (next : string) (prng' : G),
    GenerateDeterministic chain current prng = Ok ((next, None), prng')
    /\ 1 <= seen order inputs (key current) next.
Proof.
  intros Hchain Hbound Hlen Hlast Htoken Hkey.
  assert (Order chain = order) as Horder by apply (AddAll_Order _ _ _ Hchain).
  destruct (trained_state_row order inputs chain current Hchain Hbound Hkey)
    as (i & arr & Hi & Harr & Hpos & Hsum & Hent).
  destruct (trained_ok order inputs chain Hchain Hbound) as (pairs & Hhist & Hok).
  destruct (trained_counts order inputs chain Hchain Hbound) as (pairs' & Hhist' & Hc).
  assert (pairs' = pairs) as -> by congruence.
  destruct (ok_rows _ _ Hok i arr Harr) as (_ & Htot & _).
  rewrite (history_length order inputs pairs Hhist) in Htot.
  pose proof (row_present chain i arr Harr) as Hrow.
  destruct (Intn_in_range prng (sum arr)) as (randN & prng' & Hdraw & Hrand); [lia|].
  destruct (pick_returns (intMap (statePool chain)) (orderedPairs arr) randN)
    as [next Hnext].
  { intros [k v] Hkv%orderedPairs_elem. destruct (Hent k v Hkv). simpl. lia. }
  { rewrite orderedPairs_total. lia. }
  { rewrite orderedPairs_total. lia. }
  destruct (pick_elem _ _ _ _ Hnext) as ([j count] & He%orderedPairs_elem & ->).
  destruct (Hent j count He) as [Hcount [t Ht]].
  exists t, prng'. split.
  - unfold GenerateDeterministic.
    rewrite Horder, <- Hlen, Z.eqb_refl, Hlast. simpl.
    rewrite bool_decide_eq_false_2 by done.
    rewrite (spool_get_Some _ _ _ Hi). simpl. rewrite Hrow, Hdraw. simpl.
    rewrite Hnext. simpl. by rewrite Ht.
  - unfold seen. rewrite Hhist, <- (counts_occurrences _ _ Hc).
    apply (pool_inverse _ (counts_pool _ _ Hc)) in Ht.
    unfold count_of. rewrite Hi, Ht, Hrow. unfold at_key. rewrite He. simpl. lia.
Qed.

Lemma Generate_returns_seen_witness :
  exists (next : string) (prng' : Z),
    GenerateDeterministic (trained 1 [["the"; "cat"]; ["the"; "dog"]]) ["the"] 42
      = Ok ((next, None), prng')
    /\ 1 <= seen 1 [["the"; "cat"]; ["the"; "dog"]] (key ["the"]) next.
Proof.
  apply (Generate_returns_seen 1 [["the"; "cat"]; ["the"; "dog"]]
           (trained 1 [["the"; "cat"]; ["the"; "dog"]]) ["the"] "the" 42).
  - vm_compute. reflexivity.
  - vm_compute. discriminate.
  - vm_compute. reflexivity.
  - vm_compute. reflexivity.
  - discriminate.
  - vm_compute. apply elem_of_cons. right. by left.
Defined.

Lemma Generate_never_last_witness :
  exists (e : Z * Z) (prng' : Z),
    e ∈ [(2, 1)]
    /\ GenerateDeterministic (trained 1 [["the"; "cat"]; ["the"; "dog"]]) ["the"] 42
       = Ok ((name (trained 1 [["the"; "cat"]; ["the"; "dog"]]) e.1, None), prng').
Proof.
  apply (Generate_never_last 1 [["the"; "cat"]; ["the"; "dog"]]
           (trained 1 [["the"; "cat"]; ["the"; "dog"]]) ["the"] "the" 42 1 4 [(2, 1)]).
  - vm_compute. reflexivity.
  - vm_compute. discriminate.
  - vm_compute. reflexivity.
  - vm_compute. reflexivity.
  - discriminate.
  - vm_compute. reflexivity.
  - vm_compute. reflexivity.
  - discriminate.
Defined.

(** ** Training in several steps *)

Lemma occurrences_app pairs1 pairs2 k t :
  occurrences (pairs1 ++ pairs2) k t = occurrences pairs1 k t + occurrences pairs2 k t.
Proof. induction pairs1 as [|q pairs1 IH]; simpl; lia. Qed.

(** X13. Training a chain made by [NewChain] and [Add] further adds to
    every count the number of times its transition occurs in the windows
    of the new inputs; no count gets lower. *)
Theorem training_accumulates (order : Z) (inputs1 inputs2 : list (list string))
    (chain1 chain2 : Chain) (k t : string) :
  AddAll (NewChain order) inputs1 = Ok chain1 ->
  AddAll chain1 inputs2 = Ok chain2 ->
  transitions order inputs1 + transitions order inputs2 <= GoInt.max_int ->
  count_of chain2 k t = count_of chain1 k t + seen order inputs2 k t
  /\ count_of chain1 k t <= count_of chain2 k t.
Proof.
  intros H1 H2 Hbound.
  assert (Order chain1 = order) as Horder by apply (AddAll_Order _ _ _ H1).
  apply AddAll_history in H1 as (pairs1 & Hhist1 & ->). simpl in Hhist1.
  apply AddAll_history in H2 as (pairs2 & Hhist2 & ->). rewrite Horder in Hhist2.
  pose proof (history_length _ _ _ Hhist1) as Hn1.
  pose proof (history_length _ _ _ Hhist2) as Hn2.
  assert (counts_ok pairs1 (foldl Add_pair (NewChain order) pairs1)) as Hc1.
  { apply (counts_ok_foldl pairs1 [] (NewChain order) (counts_ok_new order)). simpl. lia. }
  assert (counts_ok (pairs1 ++ pairs2)
            (foldl Add_pair (foldl Add_pair (NewChain order) pairs1) pairs2)) as Hc2.
  { apply counts_ok_foldl; [done|]. rewrite length_app. lia. }
  rewrite (counts_occurrences _ _ Hc2), (counts_occurrences _ _ Hc1), occurrences_app.
  unfold seen. rewrite Hhist2.
  pose proof (occurrences_bounds pairs2 k t). lia.
Qed.

Lemma training_accumulates_witness :
  count_of (trained 1 [["the"; "cat"]; ["the"; "cat"; "sat"]]) "the" "cat"
  = count_of (trained 1 [["the"; "cat"]]) "the" "cat"
    + seen 1 [["the"; "cat"; "sat"]] "the" "cat"
  /\ count_of (trained 1 [["the"; "cat"]]) "the" "cat"
     <= count_of (trained 1 [["the"; "cat"]; ["the"; "cat"; "sat"]]) "the" "cat".
Proof.
  apply (training_accumulates 1 [["the"; "cat"]] [["the"; "cat"; "sat"]]
           (trained 1 [["the"; "cat"]])
           (trained 1 [["the"; "cat"]; ["the"; "cat"; "sat"]]) "the" "cat").
  - vm_compute. reflexivity.
  - vm_compute. reflexivity.
  - vm_compute. discriminate.
Defined.

(** ** The padding of an input *)

(** The first pair [Add] records: from the padding of START tokens to the
    first token of the input, or to END for an empty input. *)
Lemma Add_pairs_first order input pairs :
  0 < order -> Add_pairs order input = Ok pairs ->
  exists ps,
    pairs = {| CurrentState := replicate (Z.to_nat order) StartToken;
               NextState := default EndToken (head input) |} :: ps.
Proof.
  intros Horder Hpairs. pose proof (Add_pairs_order _ _ _ Hpairs) as Hmake.
  rewrite Add_pairs_padded in Hpairs by done. revert Hpairs. unfold MakePairs.
  destruct (Z.ltb_spec order 0) as [|_]; [lia|].
  rewrite !length_app, !length_replicate.
  destruct (Z.leb_spec (Z.of_nat (Z.to_nat order + (length input + Z.to_nat order)) - order) 0)
    as [|Hn]; [lia|].
  set (n := Z.to_nat order) in *.
  set (tokens := replicate n StartToken ++ input ++ replicate n EndToken).
  intros Hr. apply MakePairs_from_spec in Hr as (ws & -> & Hlen & Hws). simpl.
  destruct ws as [|w ws]; [simpl in Hlen; lia|].
  destruct (Hws 0%nat w eq_refl) as [Hcur Hnext]. simpl in Hcur, Hnext.
  exists ws. f_equal. destruct w as [cur next]. simpl in *. f_equal.
  - rewrite Hcur. unfold tokens. apply take_app_length'. by rewrite length_replicate.
  - unfold tokens in Hnext.
    rewrite lookup_app_r in Hnext by (rewrite length_replicate; lia).
    rewrite length_replicate, Nat.sub_diag in Hnext.
    destruct input as [|first input]; simpl in *; [|congruence].
    destruct n as [|n'] eqn:Hn'; [lia|]. simpl in Hnext. congruence.
Qed.

(** X14. At an order above 0, every [Add] that returns records a
    transition from the n-gram of START tokens to the first token of its
    input (to END when the input is empty). After a first [Add] on a new
    chain the key of that n-gram is the key of a recorded state, with an
    index in the pool and a row in the chain. *)
Theorem start_state_recorded (order : Z) (input : list string)
    (inputs : list (list string)) (chain : Chain) :
  0 < order ->
  AddAll (NewChain order) (input :: inputs) = Ok chain ->
  transitions order (input :: inputs) <= GoInt.max_int ->
  key (replicate (Z.to_nat order) StartToken) ∈ states_of order (input :: inputs)
  /\ 1 <= seen order (input :: inputs) (key (replicate (Z.to_nat order) StartToken))
            (default EndToken (head input))
  /\ exists i,
       stringMap (statePool chain) !! key (replicate (Z.to_nat order) StartToken) = Some i
       /\ is_Some (frequencyMat chain !! i).
Proof.
  intros Horder Hchain Hbound.
  destruct (trained_ok _ _ _ Hchain Hbound) as (pairs & Hhist & Hok).
  assert (exists ps, pairs
            = {| CurrentState := replicate (Z.to_nat order) StartToken;
                 NextState := default EndToken (head input) |} :: ps) as [ps ->].
  { simpl in Hhist.
    destruct (Add_pairs order input) as [ps|] eqn:Hps; simpl in Hhist; [|done].
    destruct (history order inputs) as [qs|]; simpl in Hhist; [|done].
    injection Hhist as <-. apply Add_pairs_first in Hps as [ps' ->]; [|done].
    by exists (ps' ++ qs). }
  assert (key (replicate (Z.to_nat order) StartToken)
          ∈ state_keys ({| CurrentState := replicate (Z.to_nat order) StartToken;
                           NextState := default EndToken (head input) |} :: ps)) as Hkey.
  { unfold state_keys. simpl. by left. }
  unfold states_of, seen. rewrite Hhist. split; [done|]. split.
  - simpl. rewrite bool_decide_eq_true_2 by done.
    pose proof (occurrences_bounds ps (key (replicate (Z.to_nat order) StartToken))
                  (default EndToken (head input))). lia.
  - apply (ok_states _ _ Hok _ Hkey).
Qed.

Lemma start_state_recorded_witness :
  key (replicate (Z.to_nat 2) StartToken) ∈ states_of 2 [["the"; "cat"]]
  /\ 1 <= seen 2 [["the"; "cat"]] (key (replicate (Z.to_nat 2) StartToken))
            (default EndToken (head ["the"; "cat"]))
  /\ exists i,
       stringMap (statePool (trained 2 [["the"; "cat"]]))
         !! key (replicate (Z.to_nat 2) StartToken) = Some i
       /\ is_Some (frequencyMat (trained 2 [["the"; "cat"]]) !! i).
Proof.
  apply (start_state_recorded 2 ["the"; "cat"] [] (trained 2 [["the"; "cat"]])).
  - lia.
  - vm_compute. reflexivity.
  - vm_compute. discriminate.
Defined.

(** ** Snapshots of trained chains *)












